(** * lum: a Discord bot with permanent memory (bot.py)

    A shallow embedding of [bot.py]: the text operations the bot applies to
    message contents, the small part of Python's [re] its patterns use, the
    four SQLite tables behind the permanent memory, the event handler
    [on_message] with the command handlers it dispatches to, and the
    properties of the dispatch and of the stores.

    Texts are sequences of code points below 256 (Latin-1), one [ascii] per
    code point; on that range [str.lower], [str.strip], [\s], [\w] and [.]
    are the tables given below.  What lowercasing does to a letter above
    that range is shown on two of them, in [Unicode]. *)

From Stdlib Require Import ZArith NArith List Ascii String Bool Lia Sorted Permutation.
From stdpp Require Import base gmap strings.

Set Default Proof Using "Type".

(** ** Texts *)

Abbreviation str := (list ascii).

Definition str_parse (b : list Byte.byte) : str := map ascii_of_byte b.
Definition str_print (s : str) : list Byte.byte := map byte_of_ascii s.

Declare Scope str_scope.
Delimit Scope str_scope with str.
String Notation str str_parse str_print : str_scope.
Local Open Scope str_scope.

Definition code (c : ascii) : N := N_of_ascii c.

Definition between (lo hi n : N) : bool := ((lo <=? n) && (n <=? hi))%N.

(** [str.isspace] on one character; the same set is [\s] of [re] and what
    [str.strip] removes. *)
Definition isspace (c : ascii) : bool :=
  let n := code c in
  between 9 13 n || between 28 32 n || (n =? 133)%N || (n =? 160)%N.

(** [str.isupper] on one character. *)
Definition isupper (c : ascii) : bool :=
  let n := code c in
  between 65 90 n || (between 192 222 n && negb (n =? 215)%N).

(** [str.lower] on one character. *)
Definition lower_char (c : ascii) : ascii :=
  if isupper c then ascii_of_N (code c + 32) else c.

(** [\w] of [re] on text patterns: alphanumeric or the underscore. *)
Definition isword (c : ascii) : bool :=
  let n := code c in
  between 48 57 n || between 65 90 n || (n =? 95)%N || between 97 122 n
  || (n =? 170)%N || between 178 179 n || (n =? 181)%N || between 185 186 n
  || between 188 190 n || between 192 214 n || between 216 246 n
  || between 248 255 n.

(** [.] of [re] without DOTALL: anything but a newline. *)
Definition notnewline (c : ascii) : bool := negb (code c =? 10)%N.

Definition nonspace (c : ascii) : bool := negb (isspace c).

(** [s.lower()] *)
Definition lower (s : str) : str := map lower_char s.

Fixpoint drop_while (p : ascii -> bool) (s : str) : str :=
  match s with
  | [] => []
  | c :: s' => if p c then drop_while p s' else s
  end.

Definition is_empty (s : str) : bool :=
  match s with [] => true | _ :: _ => false end.

(** Truth value of a text: [if s:] *)
Definition truthy (s : str) : bool := negb (is_empty s).

(** [s.lstrip()], [s.rstrip()], [s.strip()] *)
Definition lstrip (s : str) : str := drop_while isspace s.

Definition rstrip (s : str) : str :=
  fold_right (fun c acc => if isspace c && is_empty acc then [] else c :: acc) [] s.

Definition strip (s : str) : str := lstrip (rstrip s).

(** [s.startswith(p)] *)
Fixpoint startswith (s p : str) {struct p} : bool :=
  match p with
  | [] => true
  | a :: p' =>
      match s with
      | [] => false
      | b :: s' => if Ascii.eqb a b then startswith s' p' else false
      end
  end.

(** [s.endswith(p)] *)
Definition endswith (s p : str) : bool := startswith (rev s) (rev p).

(** [p in s] *)
Fixpoint contains (s p : str) : bool :=
  if startswith s p then true
  else match s with
       | [] => false
       | _ :: s' => contains s' p
       end.

(** [s.split(p, 1)[0]]: the text before the first occurrence of [p], all of
    [s] when there is none. *)
Fixpoint split_before (s p : str) : str :=
  if startswith s p then []
  else match s with
       | [] => []
       | c :: s' => c :: split_before s' p
       end.

(** ** Regular expressions

    The constructs the patterns of the bot are made of, matched the way
    [re] does: by backtracking, alternatives left to right, a greedy
    repetition longest first and a lazy one shortest first. *)

Inductive regex : Type :=
| Lit (p : str)                                      (* literal text *)
| Rep (greedy : bool) (least : nat) (cls : ascii -> bool)
                                                     (* \s*  \s+  \S+  .+  .+? *)
| Seq (r1 r2 : regex)
| Alt (r1 r2 : regex)                                (* r1|r2 *)
| Group (n : nat) (r : regex)                        (* (r), the n-th group *)
| Bol                                                (* ^ *)
| Eol                                                (* $ *)
| WordB.                                             (* \b *)

Definition captures := list (nat * str).

(** The rest of a match: the character before the position (none at the
    start of the text), the text still to read, the groups bound so far. *)
Definition cont := option ascii -> str -> captures -> option captures.

Definition char_eq (ignorecase : bool) (a b : ascii) : bool :=
  if ignorecase then Ascii.eqb (lower_char a) (lower_char b) else Ascii.eqb a b.

Fixpoint lit_match (ic : bool) (p : str) (prev : option ascii) (s : str)
  : option (option ascii * str) :=
  match p with
  | [] => Some (prev, s)
  | a :: p' =>
      match s with
      | [] => None
      | b :: s' => if char_eq ic a b then lit_match ic p' (Some b) s' else None
      end
  end.

Fixpoint rep_match (greedy : bool) (cls : ascii -> bool) (least : nat)
    (prev : option ascii) (s : str) (c : captures) (k : cont) {struct s}
  : option captures :=
  if greedy then
    match
      match s with
      | b :: s' => if cls b then rep_match greedy cls (pred least) (Some b) s' c k else None
      | [] => None
      end
    with
    | Some m => Some m
    | None => match least with O => k prev s c | S _ => None end
    end
  else
    match
      match least with O => k prev s c | S _ => None end
    with
    | Some m => Some m
    | None =>
        match s with
        | b :: s' => if cls b then rep_match greedy cls (pred least) (Some b) s' c k else None
        | [] => None
        end
    end.

Definition word_at (c : option ascii) : bool :=
  match c with Some a => isword a | None => false end.

Fixpoint rmatch (ic : bool) (r : regex) (prev : option ascii) (s : str)
    (c : captures) (k : cont) {struct r} : option captures :=
  match r with
  | Lit p =>
      match lit_match ic p prev s with
      | Some (prev', s') => k prev' s' c
      | None => None
      end
  | Rep g least cls => rep_match g cls least prev s c k
  | Seq r1 r2 =>
      rmatch ic r1 prev s c (fun prev' s' c' => rmatch ic r2 prev' s' c' k)
  | Alt r1 r2 =>
      match rmatch ic r1 prev s c k with
      | Some m => Some m
      | None => rmatch ic r2 prev s c k
      end
  | Group n r1 =>
      rmatch ic r1 prev s c
        (fun prev' s' c' => k prev' s' ((n, firstn (length s - length s') s) :: c'))
  | Bol => match prev with None => k prev s c | Some _ => None end
  | Eol =>
      match s with
      | [] => k prev s c
      | [a] => if (code a =? 10)%N then k prev s c else None
      | _ => None
      end
  | WordB => if xorb (word_at prev) (word_at (head s)) then k prev s c else None
  end.

Definition accept : cont := fun _ _ c => Some c.

(** [re.match(r, s)]: a match at the start of [s]. *)
Definition re_match (ic : bool) (r : regex) (s : str) : option captures :=
  rmatch ic r None s [] accept.

Fixpoint search_from (ic : bool) (r : regex) (prev : option ascii) (s : str)
  : option captures :=
  match rmatch ic r prev s [] accept with
  | Some m => Some m
  | None =>
      match s with
      | [] => None
      | a :: s' => search_from ic r (Some a) s'
      end
  end.

(** [re.search(r, s)]: the leftmost match. *)
Definition re_search (ic : bool) (r : regex) (s : str) : option captures :=
  search_from ic r None s.

(** [m.group(n)].  Every group of the bot's patterns lies on every path
    through its pattern, so a match always binds it. *)
Fixpoint group (m : captures) (n : nat) : str :=
  match m with
  | [] => []
  | (i, g) :: m' => if Nat.eqb i n then g else group m' n
  end.

Definition cat (rs : list regex) : regex := fold_right Seq (Lit []) rs.

Definition any_of (ps : list str) : regex :=
  match ps with
  | [] => Lit []
  | p :: ps' => fold_left (fun r q => Alt r (Lit q)) ps' (Lit p)
  end.

Definition spaces0 : regex := Rep true 0 isspace.        (* \s* *)
Definition spaces1 : regex := Rep true 1 isspace.        (* \s+ *)
Definition nonspaces1 : regex := Rep true 1 nonspace.    (* \S+ *)
Definition rest1 : regex := Rep true 1 notnewline.       (* .+ *)
Definition lazy1 : regex := Rep false 1 notnewline.      (* .+? *)

Definition greeting_words : list str := ["hello"; "hi"; "hey"; "yo"; "sup"].

(** [^(hello|hi|hey|yo|sup) lum\b] *)
Definition greeting_lum : regex :=
  cat [Bol; Group 1 (any_of greeting_words); Lit " lum"; WordB].

(** [^(hello|hi|hey|yo|sup)\s*$] *)
Definition greeting_alone : regex :=
  cat [Bol; Group 1 (any_of greeting_words); spaces0; Eol].

(** [^(hello|hi|hey|yo|sup)\s+\S+] *)
Definition greeting_other : regex :=
  cat [Bol; Group 1 (any_of greeting_words); spaces1; nonspaces1].

(** [\blum\s+generate\s+(.+)] *)
Definition generate_pattern : regex :=
  cat [WordB; Lit "lum"; spaces1; Lit "generate"; spaces1; Group 1 rest1].

(** [lum set your opinion on\s+(.+?)\s+(?:to|as)\s+(.+)] *)
Definition set_opinion_pattern : regex :=
  cat [Lit "lum set your opinion on"; spaces1; Group 1 lazy1; spaces1;
       any_of ["to"; "as"]; spaces1; Group 2 rest1].

(** [lum what(?:'s|s| is) your opinion on\s+(.+)] *)
Definition get_opinion_pattern : regex :=
  cat [Lit "lum what"; any_of ["'s"; "s"; " is"]; Lit " your opinion on";
       spaces1; Group 1 rest1].

(** ** Permanent memory: the four tables of [chat_memory.db] *)

(** A row of [conversation_history]. *)
Record Turn : Type := mkTurn {
  turn_id : Z;            (* id INTEGER PRIMARY KEY AUTOINCREMENT *)
  turn_user : Z;          (* user_id *)
  turn_role : str;
  turn_content : str
}.

Record DB : Type := mkDB {
  user_memory : gmap (Z * str) str;       (* PRIMARY KEY (user_id, memory_key) *)
  lum_preferences : gmap str str;         (* preference_key PRIMARY KEY *)
  conversation_history : list Turn;
  allowed_channels : list (Z * str)       (* channel_id PRIMARY KEY, channel_name *)
}.

(** What [setup_database] leaves behind on a fresh file. *)
Definition setup_database : DB := mkDB ∅ ∅ [] [].

Definition set_user_memory (user_id : Z) (key value : str) (d : DB) : DB :=
  mkDB (<[(user_id, key) := value]> (user_memory d)) (lum_preferences d)
       (conversation_history d) (allowed_channels d).

Definition get_user_memory (user_id : Z) (key : str) (d : DB) : option str :=
  user_memory d !! (user_id, key).

Definition set_lum_preference (key value : str) (d : DB) : DB :=
  mkDB (user_memory d) (<[key := value]> (lum_preferences d))
       (conversation_history d) (allowed_channels d).

Definition get_lum_preference (key : str) (d : DB) : option str :=
  lum_preferences d !! key.

(** The id an AUTOINCREMENT column gives the next row: one more than the
    largest id of the table (no row is ever deleted). *)
Definition next_id (rows : list Turn) : Z :=
  1 + fold_right (fun t m => Z.max (turn_id t) m) 0%Z rows.

Definition add_conversation_message (user_id : Z) (role content : str) (d : DB) : DB :=
  mkDB (user_memory d) (lum_preferences d)
       (conversation_history d
          ++ [mkTurn (next_id (conversation_history d)) user_id role content])
       (allowed_channels d).

(** [ORDER BY id DESC] *)
Fixpoint insert_desc (t : Turn) (l : list Turn) : list Turn :=
  match l with
  | [] => [t]
  | u :: l' => if (turn_id u <? turn_id t)%Z then t :: l else u :: insert_desc t l'
  end.

Definition order_by_id_desc (l : list Turn) : list Turn :=
  fold_right insert_desc [] l.

(** [LIMIT ?]: a negative bound is no bound. *)
Definition sql_limit {A} (limit : Z) (l : list A) : list A :=
  if (limit <? 0)%Z then l else firstn (Z.to_nat limit) l.

Definition get_conversation_history (user_id : Z) (limit : Z) (d : DB)
  : list (str * str) :=
  let rows :=
    sql_limit limit
      (order_by_id_desc
         (List.filter (fun t => (turn_user t =? user_id)%Z) (conversation_history d))) in
  map (fun t => (turn_role t, turn_content t)) (rev rows).

Definition has_channel (channel_id : Z) (rows : list (Z * str)) : bool :=
  existsb (fun r => (fst r =? channel_id)%Z) rows.

(** [INSERT OR IGNORE] *)
Definition add_allowed_channel (channel_id : Z) (channel_name : str) (d : DB) : DB :=
  mkDB (user_memory d) (lum_preferences d) (conversation_history d)
       (if has_channel channel_id (allowed_channels d) then allowed_channels d
        else allowed_channels d ++ [(channel_id, channel_name)]).

Definition get_allowed_channels (d : DB) : gset Z :=
  list_to_set (map fst (allowed_channels d)).

(** ** Messages and the outside world *)

Record Message : Type := mkMessage {
  author_id : Z;
  author_bot : bool;            (* message.author.bot *)
  content : str;
  in_guild : bool;              (* message.guild is not None *)
  channel_id : Z;
  channel_name : option str;    (* message.channel.name, when the channel has one *)
  is_dm : bool;                 (* isinstance(message.channel, discord.DMChannel) *)
  mentions_bot : bool           (* client.user in message.mentions *)
}.

Inductive SearchResult : Type :=
| SearchRaised                  (* the request or the shape of its answer fails *)
| SearchEmpty                   (* data["data"] is empty *)
| SearchUrl (url : str).

Inductive RandomResult : Type :=
| RandomRaised
| RandomNone                    (* no data / images / original *)
| RandomUrl (url : str).

(** The services behind one event.  A call that raises, or whose answer
    lacks the field read from it, is [None]. *)
Record Executors : Type := mkExecutors {
  chat_completion : list (str * str) -> Z -> option str;
      (* messages, max_tokens |-> choices[0].message.content *)
  image_create : str -> option str;        (* prompt |-> data[0].url *)
  giphy_search : str -> SearchResult;
  giphy_random : RandomResult;
  giphy_api_key : bool                     (* GIPHY_API_KEY is set *)
}.

(** What an event does that can be seen from outside the process. *)
Inductive Event : Type :=
| Reply (text : str)                       (* message.reply *)
| Typing                                   (* message.channel.typing *)
| Print (what : str)                       (* print of a failure, without the exception text *)
| ChatCompletion (messages : list (str * str)) (max_tokens : Z)
| ImageCreate (prompt : str)
| GiphySearch (q : str)
| GiphyRandom.

Record World : Type := mkWorld {
  db : DB;
  trace : list Event
}.

(** Handlers run in a state monad over the world. *)
Definition M (A : Type) : Type := World -> A * World.

Definition ret {A} (a : A) : M A := fun w => (a, w).

Definition bind {A B} (c : M A) (f : A -> M B) : M B :=
  fun w => let (a, w') := c w in f a w'.

Notation "x <- c ;; k" := (bind c (fun x => k))
  (at level 100, c at next level, right associativity).
Notation "c ;;; k" := (bind c (fun _ => k))
  (at level 100, right associativity).

Definition emit (e : Event) : M unit :=
  fun w => (tt, mkWorld (db w) (trace w ++ [e])).

Definition query {A} (f : DB -> A) : M A := fun w => (f (db w), w).

Definition update (f : DB -> DB) : M unit :=
  fun w => (tt, mkWorld (f (db w)) (trace w)).

Definition reply (text : str) : M unit := emit (Reply text).

(** The world after a handler has run. *)
Definition run (c : M unit) (w : World) : World := snd (c w).

(** ** Message detection *)

Definition greeting_patterns : list regex := [greeting_lum; greeting_alone].

Definition trigger_keywords : list str :=
  ["lum"; "bot"; "question"; "help"; "how are you"; "what's"; "whats"; "who";
   "define"; "explain"].

Definition matches (r : regex) (s : str) : bool :=
  match re_match false r s with Some _ => true | None => false end.

Definition is_message_directed_at_bot (message : Message) : bool :=
  if is_dm message then true
  else if mentions_bot message then true
  else
    let content := strip (lower (content message)) in
    if existsb (fun pattern => matches pattern content) greeting_patterns then true
    else if matches greeting_other content then false
    else if existsb (fun word => startswith content word) trigger_keywords then true
    else if endswith content "?" then true
    else false.

(** ** Command handlers *)

Definition handle_set_channel (message : Message) : M unit :=
  let channel_id := channel_id message in
  let channel_name :=
    match channel_name message with Some n => n | None => "DM" end in
  update (add_allowed_channel channel_id channel_name) ;;;
  reply ("Channel **" ++ channel_name ++ "** has been set for Lum to speak.").

Definition handle_set_language (message : Message) : M unit :=
  let language := strip (skipn (length "lum set language to") (content message)) in
  if negb (truthy language) then
    reply "please provide a language, e.g. 'lum set language to french'"
  else
    update (set_lum_preference "language" language) ;;;
    reply ("Language set to **" ++ language ++ "**.").

Definition handle_set_opinion (message : Message) : M unit :=
  match re_search true set_opinion_pattern (content message) with
  | None =>
      reply "Please use the format: 'lum set your opinion on <subject> to <opinion>'."
  | Some m =>
      let subject := strip (group m 1) in
      let opinion := strip (group m 2) in
      update (set_lum_preference subject opinion) ;;;
      reply ("Okay, I've set my opinion on **" ++ subject ++ "** to: " ++ opinion)
  end.

(** The value of [x] under [if x:], for an [x] that is a text or [None]:
    neither [None] nor the empty text counts. *)
Definition if_set (x : option str) : option str :=
  match x with
  | Some s => if truthy s then Some s else None
  | None => None
  end.

(** [f" Respond in {language}." if language else ""] *)
Definition language_instruction (language : option str) : str :=
  match if_set language with
  | Some l => " Respond in " ++ l ++ "."
  | None => ""
  end.

Definition opinion_prompt (subject : str) (language : option str) : str :=
  "You are lum, a laid-back discord bot with strong opinions about everything."
  ++ " Provide your opinion on " ++ subject ++ " in one short sentence."
  ++ language_instruction language
  ++ " Do not say that you have no opinion.".

Definition opinion_messages (subject : str) (language : option str)
  : list (str * str) :=
  [("system",
    "You are lum, a laid-back discord bot with strong opinions and a casual tone.");
   ("user", opinion_prompt subject language)].

Definition handle_get_opinion (ex : Executors) (message : Message) : M unit :=
  match re_search true get_opinion_pattern (content message) with
  | None =>
      reply "Please ask in the format: 'lum what's your opinion on <subject>'."
  | Some m =>
      let subject := strip (group m 1) in
      opinion <- query (get_lum_preference subject) ;;
      match if_set opinion with
      | Some o => reply ("My opinion on **" ++ subject ++ "** is: " ++ o)
      | None =>
          language <- query (get_lum_preference "language") ;;
          let messages := opinion_messages subject language in
          emit (ChatCompletion messages 60) ;;;
          match chat_completion ex messages 60 with
          | Some text =>
              let generated_opinion := strip text in
              update (set_lum_preference subject generated_opinion) ;;;
              reply ("My opinion on **" ++ subject ++ "** is: " ++ generated_opinion)
          | None =>
              reply "Sorry, I couldn't generate an opinion on that right now." ;;;
              emit (Print "Error generating opinion")
          end
      end
  end.

Definition system_instruction (user_memory language : option str) : str :=
  let memory_intro :=
    match if_set user_memory with
    | Some n => "this user is called " ++ n ++ ". "
    | None => ""
    end in
  "you are lum, a laid-back discord bot. "
  ++ "you always use lowercase and keep responses short. " ++ memory_intro
  ++ "never add extra words, never start a conversation, never introduce yourself. "
  ++ "if someone greets you, respond minimally ('hey.', 'yo.', 'hi.') and nothing more. "
  ++ "if someone asks how you're doing, respond with 'fine.' or 'alright.'. "
  ++ "if answering a factual question, provide the answer and stop. do not add anything extra."
  ++ language_instruction language.

Definition handle_bot_message (ex : Executors) (message : Message) : M unit :=
  emit Typing ;;;
  let user_id := author_id message in
  let content := strip (lower (content message)) in
  update (add_conversation_message user_id "user" content) ;;;
  history <- query (get_conversation_history user_id 10) ;;
  user_memory <- query (get_user_memory user_id "user_name") ;;
  language <- query (get_lum_preference "language") ;;
  let messages := ("system", system_instruction user_memory language) :: history in
  emit (ChatCompletion messages 200) ;;;
  match chat_completion ex messages 200 with
  | Some text =>
      let bot_reply := lower text in
      update (add_conversation_message user_id "assistant" bot_reply) ;;;
      reply bot_reply
  | None => emit (Print "OpenAI response error")
  end.

(** [prompt_override] is the prompt of a request in natural language; without
    it the prompt is what follows [!img]. *)
Definition handle_image_generation (ex : Executors) (message : Message)
    (prompt_override : option str) : M unit :=
  let prompt :=
    match prompt_override with
    | Some p => p
    | None => strip (skipn (length "!img") (content message))
    end in
  if negb (truthy prompt) then reply "please provide an image prompt."
  else
    emit Typing ;;;
    emit (ImageCreate prompt) ;;;
    match image_create ex prompt with
    | Some image_url => reply image_url
    | None =>
        reply "sorry, there was an error generating the image." ;;;
        emit (Print "Image generation error")
    end.

Definition handle_random_gif (ex : Executors) (message : Message) : M unit :=
  emit Typing ;;;
  if negb (giphy_api_key ex) then reply "Giphy API key is not set."
  else
    emit GiphyRandom ;;;
    match giphy_random ex with
    | RandomUrl gif_url => reply gif_url
    | RandomNone => reply "sorry, I couldn't find a random gif."
    | RandomRaised =>
        reply "sorry, there was an error fetching a random gif." ;;;
        emit (Print "Giphy API error")
    end.

Definition handle_gif_search (ex : Executors) (message : Message)
    (query_override : option str) : M unit :=
  let q :=
    match query_override with
    | Some q => q
    | None => strip (skipn (length "!gif") (content message))
    end in
  if negb (truthy q) then reply "please provide a search term for the gif."
  else
    emit Typing ;;;
    if negb (giphy_api_key ex) then reply "Giphy API key is not set."
    else
      emit (GiphySearch q) ;;;
      match giphy_search ex q with
      | SearchUrl gif_url => reply gif_url
      | SearchEmpty => handle_random_gif ex message
      | SearchRaised =>
          reply "sorry, there was an error searching for a gif." ;;;
          emit (Print "Giphy API error")
      end.

(** ** The event handler

    The registry is read for guild messages only; reading it changes
    nothing, so [on_message] reads it before it looks at [in_guild]. *)

(** The prompt of a request in natural language: group 1 of the first match
    of [generate_pattern], stripped, when there is a match and the prompt is
    not empty. *)
Definition generate_prompt (lower_content : str) : option str :=
  match re_search false generate_pattern lower_content with
  | Some generate_match =>
      let prompt := strip (group generate_match 1) in
      if truthy prompt then Some prompt else None
  | None => None
  end.

Definition gif_query (lower_content : str) : str :=
  let parts0 :=
    if contains lower_content "with a gif" then split_before lower_content "with a gif"
    else split_before lower_content "as a gif" in
  let q := strip parts0 in
  if startswith q "lum" then strip (skipn 3 q) else q.

Definition on_message (ex : Executors) (message : Message) : M unit :=
  if author_bot message then ret tt
  else
    let lower_content := lower (content message) in
    if startswith lower_content "!setchannel" then handle_set_channel message
    else if startswith lower_content "lum set language to" then handle_set_language message
    else
      allowed <- query get_allowed_channels ;;
      if in_guild message && negb (bool_decide (channel_id message ∈ allowed)) then ret tt
      else if startswith lower_content "!gif" then handle_gif_search ex message None
      else if startswith lower_content "!img" then handle_image_generation ex message None
      else if is_message_directed_at_bot message then
        if startswith lower_content "lum set your opinion on" then handle_set_opinion message
        else if startswith lower_content "lum what" && contains lower_content "your opinion on"
        then handle_get_opinion ex message
        else
          match generate_prompt lower_content with
          | Some prompt => handle_image_generation ex message (Some prompt)
          | None =>
              if contains lower_content "with a gif" || contains lower_content "as a gif" then
                let q := gif_query lower_content in
                if truthy q then handle_gif_search ex message (Some q)
                else reply "please provide a search term for the gif."
              else if contains lower_content "give me" && contains lower_content "random gif"
              then handle_random_gif ex message
              else handle_bot_message ex message
          end
      else ret tt.

(** The events of a session, each with the services as they answer during it. *)
Fixpoint session (events : list (Executors * Message)) (w : World) : World :=
  match events with
  | [] => w
  | (ex, message) :: events' => session events' (run (on_message ex message) w)
  end.

(** ** Vocabulary of the properties *)

(** No character of [s] is an uppercase letter. *)
Definition no_upper (s : str) : Prop := Forall (fun c => isupper c = false) s.

(** All characters of [s] are whitespace. *)
Definition blank (s : str) : Prop := Forall (fun c => isspace c = true) s.

Definition of_user (u : Z) (t : Turn) : bool := (turn_user t =? u)%Z.

(** A row of the log as [get_conversation_history] returns it. *)
Definition shown (t : Turn) : str * str := (turn_role t, turn_content t).

(** The rows of [u], newest first, as the SELECT of
    [get_conversation_history] orders them. *)
Definition newest_first (u : Z) (d : DB) : list Turn :=
  order_by_id_desc (List.filter (of_user u) (conversation_history d)).

Definition descending : list Turn -> Prop :=
  Sorted (fun a b => (turn_id b <= turn_id a)%Z).

(** [append_all l d]: the turns of [l], each a user with a role and a
    content, appended to the log in the order of [l]. *)
Definition append_all (l : list (Z * (str * str))) (d : DB) : DB :=
  fold_left (fun d x => add_conversation_message (fst x) (fst (snd x)) (snd (snd x)) d) l d.

(** The turns of [l] that are of user [u], in the order of [l]. *)
Definition turns_of (u : Z) (l : list (Z * (str * str))) : list (str * str) :=
  map snd (List.filter (fun x => (fst x =? u)%Z) l).

(** The number of rows of [allowed_channels] with a given id. *)
Definition entries (cid : Z) (d : DB) : nat :=
  length (List.filter (fun r => (fst r =? cid)%Z) (allowed_channels d)).

(** The PRIMARY KEY constraint of [allowed_channels]. *)
Definition unique_channels (d : DB) : Prop :=
  List.NoDup (map fst (allowed_channels d)).

(** The channel of [message] passes the gate of [on_message]: it is not a
    guild channel, or the registry has it. *)
Definition channel_open (message : Message) (d : DB) : Prop :=
  in_guild message = false \/ channel_id message ∈ get_allowed_channels d.

(** Messages of the examples: one in a guild channel, one in a direct
    conversation, from a user that is not a bot and without a mention. *)
Definition guild_message (author channel : Z) (name text : str) : Message :=
  mkMessage author false text true channel (Some name) false false.

Definition direct_message (author channel : Z) (text : str) : Message :=
  mkMessage author false text false channel None true false.

(** Services that are all down. *)
Definition services_down : Executors :=
  mkExecutors (fun _ _ => None) (fun _ => None) (fun _ => SearchRaised) RandomRaised true.

(** Services whose text generation answers [text] to every request. *)
Definition services_saying (text : str) : Executors :=
  mkExecutors (fun _ _ => Some text) (fun _ => None) (fun _ => SearchRaised) RandomRaised true.

(** A world with a fresh database and nothing done yet. *)
Definition fresh : World := mkWorld setup_database [].

(** What [handle_bot_message] sends for [message] to the text generation
    when the database is [d]: the system instruction, then the history. *)
Definition converse_messages (message : Message) (d : DB) : list (str * str) :=
  ("system",
   system_instruction (get_user_memory (author_id message) "user_name" d)
                      (get_lum_preference "language" d))
  :: get_conversation_history (author_id message) 10 d.

(** The database once [handle_bot_message] has saved the turn of the user. *)
Definition with_user_turn (message : Message) (d : DB) : DB :=
  add_conversation_message (author_id message) "user"
    (strip (lower (content message))) d.


(** The longest prefix of [s] whose characters satisfy [p]. *)
Fixpoint take_while (p : ascii -> bool) (s : str) : str :=
  match s with
  | [] => []
  | c :: s' => if p c then c :: take_while p s' else []
  end.

(** The character before the position once [run] has been read from a
    position that had [prev] before it. *)
Definition after (prev : option ascii) (run : str) : option ascii :=
  fold_left (fun _ b => Some b) run prev.

(** [s] is empty or begins with a character that does not satisfy [p]. *)
Definition stops (p : ascii -> bool) (s : str) : Prop :=
  match s with
  | [] => True
  | b :: _ => p b = false
  end.

(** A text without whitespace that is not empty. *)
Definition token (s : str) : Prop :=
  s <> [] /\ Forall (fun b => isspace b = false) s.

(** The number of replies among events. *)
Definition replies (evs : list Event) : nat :=
  length (List.filter (fun e => match e with Reply _ => true | _ => false end) evs).

(** The requests to Giphy among events. *)
Definition giphy_calls (evs : list Event) : list Event :=
  List.filter (fun e => match e with GiphySearch _ | GiphyRandom => true | _ => false end) evs.

(** The last of the rows [l], or [prev] when there is none. *)
Definition last_turn (prev : option Turn) (l : list Turn) : option Turn :=
  fold_left (fun _ t => Some t) l prev.

(** Every row is a turn of a user, or a turn of the assistant that comes
    right after a turn of a user, the same user; [prev] is the row before
    the first. *)
Fixpoint well_paired (prev : option Turn) (l : list Turn) : Prop :=
  match l with
  | [] => True
  | t :: l' =>
      (turn_role t = "user"
       \/ (turn_role t = "assistant"
           /\ exists u, prev = Some u /\ turn_role u = "user" /\ turn_user u = turn_user t))
      /\ well_paired (Some t) l'
  end.

(** None of the characters of [cs] is in [s]. *)
Definition lacks (cs s : str) : Prop := Forall (fun c => ~ In c cs) s.

(** [s] neither begins nor ends with whitespace. *)
Definition trimmed (s : str) : Prop := stops isspace s /\ stops isspace (rev s).





(** [message] is none of the commands that write to [lum_preferences]: its
    text begins with none of their phrases. *)
Definition no_preference_command (message : Message) : Prop :=
  startswith (lower (content message)) "lum set language to" = false
  /\ startswith (lower (content message)) "lum set your opinion on" = false
  /\ startswith (lower (content message)) "lum what" = false.

(** ** Texts beyond U+00FF

    The texts above are over the code points below U+0100, where the tables
    of [isspace], [isupper] and [lower_char] are those of Python.  The text
    of a message, or of an answer of the text generation, can hold any code
    point.  [Unicode] adds two of them to the alphabet, both uppercase
    letters (category Lu) without a lowercase form, with what [str.lower],
    [str.isupper] and [str.isspace] do on them. *)
Module Unicode.

Inductive point : Type :=
| Below256 (c : ascii)      (* U+0000 to U+00FF *)
| DoubleStruckR             (* U+211D, DOUBLE-STRUCK CAPITAL R *)
| BoldA.                    (* U+1D400, MATHEMATICAL BOLD CAPITAL A *)

Definition text := list point.


Definition of_str (s : str) : text := map Below256 s.

Definition isspace (p : point) : bool :=
  match p with Below256 c => isspace c | _ => false end.

Definition isupper (p : point) : bool :=
  match p with Below256 c => isupper c | _ => true end.

Definition lower_char (p : point) : point :=
  match p with Below256 c => Below256 (lower_char c) | _ => p end.

(** [s.lower()] *)
Definition lower (s : text) : text := map lower_char s.

(** [s.strip()] *)
Definition rstrip (s : text) : text :=
  fold_right (fun c acc => if isspace c && match acc with [] => true | _ => false end
                           then [] else c :: acc) [] s.

Fixpoint lstrip (s : text) : text :=
  match s with
  | [] => []
  | c :: s' => if isspace c then lstrip s' else s
  end.

Definition strip (s : text) : text := lstrip (rstrip s).

(** What [handle_bot_message] writes to the log for a message:
    [message.content.lower().strip()]; and for an answer: its [lower()]. *)
Definition user_turn (content : text) : text := strip (lower content).


End Unicode.

(** * Properties *)

(** ** Characters *)


Lemma lower_char_idem (c : ascii) : lower_char (lower_char c) = lower_char c.
Proof. destruct c as [[] [] [] [] [] [] [] []]; reflexivity. Qed.

Lemma isspace_lower_char (c : ascii) : isspace (lower_char c) = isspace c.
Proof. destruct c as [[] [] [] [] [] [] [] []]; reflexivity. Qed.

Lemma isspace_not_word (c : ascii) : isspace c = true -> isword c = false.
Proof. destruct c as [[] [] [] [] [] [] [] []]; (reflexivity || discriminate). Qed.

Lemma isspace_newline (c : ascii) : notnewline c = false -> isspace c = true.
Proof. destruct c as [[] [] [] [] [] [] [] []]; (reflexivity || discriminate). Qed.

(** ** Texts *)





Lemma rstrip_cons (c : ascii) (s : str) :
  rstrip (c :: s) = if isspace c && is_empty (rstrip s) then [] else c :: rstrip s.
Proof. reflexivity. Qed.

Lemma rstrip_spaces (s : str) : Forall (fun c => isspace c = true) s -> rstrip s = [].
Proof.
  induction 1 as [|c s Hc Hs IH]; [reflexivity|].
  rewrite rstrip_cons, IH, Hc. reflexivity.
Qed.

Lemma rstrip_nil_spaces (s : str) : rstrip s = [] -> Forall (fun c => isspace c = true) s.
Proof.
  induction s as [|c s IH]; [constructor|].
  rewrite rstrip_cons.
  destruct (isspace c) eqn:Hc; simpl; [|discriminate].
  destruct (rstrip s) eqn:Hr; simpl; [|discriminate].
  intros _. constructor; auto.
Qed.

Lemma lstrip_spaces (s : str) : Forall (fun c => isspace c = true) s -> lstrip s = [].
Proof.
  induction 1 as [|c s Hc Hs IH]; [reflexivity|].
  unfold lstrip in *. simpl. rewrite Hc. exact IH.
Qed.

Lemma strip_spaces (s : str) : Forall (fun c => isspace c = true) s -> strip s = [].
Proof. intros H. unfold strip. rewrite (rstrip_spaces s H). reflexivity. Qed.

Lemma blank_or_split (r : str) :
  blank r \/ exists ws a rest, r = ws ++ a :: rest /\ blank ws /\ isspace a = false.
Proof.
  induction r as [|b r IH].
  - left. constructor.
  - destruct (isspace b) eqn:Hb.
    + destruct IH as [IH|[ws [a [rest [-> [Hws Ha]]]]]].
      * left. constructor; assumption.
      * right. exists (b :: ws), a, rest. repeat split; auto. constructor; assumption.
    + right. exists [], b, r. repeat split; auto. constructor.
Qed.

Lemma rstrip_split (ws rest : str) (a : ascii) :
  isspace a = false -> rstrip (ws ++ a :: rest) = ws ++ a :: rstrip rest.
Proof.
  intros Ha. induction ws as [|w ws IH]; simpl app.
  - rewrite rstrip_cons, Ha. reflexivity.
  - rewrite rstrip_cons, IH. destruct ws; simpl; rewrite andb_false_r; reflexivity.
Qed.

Lemma lstrip_split (ws s : str) (a : ascii) :
  blank ws -> isspace a = false -> lstrip (ws ++ a :: s) = a :: s.
Proof.
  intros Hws Ha. unfold lstrip. induction Hws as [|w ws Hw Hws IH]; simpl.
  - rewrite Ha. reflexivity.
  - rewrite Hw. exact IH.
Qed.

Lemma strip_split (ws rest : str) (a : ascii) :
  blank ws -> isspace a = false -> strip (ws ++ a :: rest) = a :: rstrip rest.
Proof.
  intros Hws Ha. unfold strip. rewrite rstrip_split by exact Ha.
  apply lstrip_split; assumption.
Qed.

(** *** What [strip] leaves *)

Lemma stops_app (p : ascii -> bool) (a b : str) : a <> [] -> stops p a -> stops p (a ++ b).
Proof. destruct a; [congruence|]. intros _ H. exact H. Qed.

Lemma rstrip_rest (s : str) :
  exists ws, s = rstrip s ++ ws /\ blank ws /\ stops isspace (rev (rstrip s)).
Proof.
  induction s as [|c s (ws & Hs & Hws & Hstop)].
  - exists []. repeat split. constructor.
  - rewrite rstrip_cons. destruct (isspace c) eqn:Hc; cbn [andb].
    + destruct (rstrip s) as [|b r] eqn:Hr; cbn [is_empty].
      * exists (c :: ws). cbn [app] in Hs. subst ws.
        repeat split. constructor; assumption.
      * exists ws. rewrite Hs at 1. repeat split; [exact Hws|].
        change (rev (c :: b :: r)) with (rev (b :: r) ++ [c]).
        apply stops_app; [|exact Hstop].
        intros H. apply (f_equal (@length ascii)) in H.
        rewrite length_rev in H. discriminate.
    + exists ws. rewrite Hs at 1. repeat split; [exact Hws|].
      change (rev (c :: rstrip s)) with (rev (rstrip s) ++ [c]).
      destruct (rev (rstrip s)) as [|b r] eqn:Hr; [exact Hc|exact Hstop].
Qed.

Lemma lstrip_rest (s : str) :
  exists ws, s = ws ++ lstrip s /\ blank ws /\ stops isspace (lstrip s).
Proof.
  unfold lstrip. induction s as [|c s (ws & Hs & Hws & Hstop)].
  - exists []. repeat split. constructor.
  - cbn [drop_while]. destruct (isspace c) eqn:Hc.
    + exists (c :: ws). cbn [app]. rewrite <- Hs. repeat split; [|exact Hstop].
      constructor; assumption.
    + exists []. repeat split; [constructor|exact Hc].
Qed.

Lemma rev_suffix_stops (p : ascii -> bool) (a b : str) :
  b <> [] -> stops p (rev (a ++ b)) -> stops p (rev b).
Proof.
  intros Hb H. rewrite rev_app_distr in H.
  destruct (rev b) as [|z t] eqn:E; [exact I|exact H].
Qed.

(** [strip s] is [s] without a run of whitespace at each end, and has no
    whitespace at either end. *)
Lemma strip_spec (s : str) :
  exists ws1 ws2, s = ws1 ++ strip s ++ ws2 /\ blank ws1 /\ blank ws2 /\ trimmed (strip s).
Proof.
  destruct (rstrip_rest s) as (ws2 & Hs & Hws2 & Hr).
  destruct (lstrip_rest (rstrip s)) as (ws1 & Hl & Hws1 & Hstop).
  exists ws1, ws2. fold (strip s) in Hl, Hstop.
  repeat split; try assumption.
  - rewrite Hs at 1. rewrite Hl at 1. rewrite <- app_assoc. reflexivity.
  - destruct (strip s) as [|a t] eqn:E; [exact I|].
    apply (rev_suffix_stops isspace ws1); [discriminate|]. rewrite <- Hl. exact Hr.
Qed.

Lemma rstrip_core (x ws : str) :
  stops isspace (rev x) -> blank ws -> rstrip (x ++ ws) = x.
Proof.
  intros Hx Hws. destruct (rev x) as [|z t] eqn:E.
  - apply (f_equal (@rev ascii)) in E. rewrite rev_involutive in E. subst x.
    apply rstrip_spaces, Hws.
  - apply (f_equal (@rev ascii)) in E. rewrite rev_involutive in E. subst x.
    cbn [rev]. rewrite <- app_assoc. cbn [app].
    rewrite rstrip_split by exact Hx. rewrite (rstrip_spaces ws Hws). reflexivity.
Qed.

(** The only text without whitespace at its ends that [s] is made of, between
    two runs of whitespace, is [strip s]. *)
Lemma strip_core (ws1 core ws2 : str) :
  blank ws1 -> blank ws2 -> trimmed core -> core <> [] ->
  strip (ws1 ++ core ++ ws2) = core.
Proof.
  intros H1 H2 [Hfirst Hlast] Hne. unfold strip.
  rewrite app_assoc, rstrip_core; [|rewrite rev_app_distr; apply stops_app|exact H2].
  - destruct core as [|a core]; [congruence|]. apply lstrip_split; assumption.
  - intros H. apply (f_equal (@length ascii)) in H. rewrite length_rev in H.
    destruct core; [congruence|discriminate].
  - exact Hlast.
Qed.

Lemma strip_blank (s : str) : strip s = [] -> blank s.
Proof.
  intros H. destruct (strip_spec s) as (ws1 & ws2 & Hs & H1 & H2 & _).
  rewrite H in Hs. rewrite Hs. apply Forall_app. auto.
Qed.


(** ** The conversation log *)

Section ConversationLog.

Local Open Scope Z_scope.

Lemma next_id_above (rows : list Turn) (t : Turn) :
  In t rows -> turn_id t < next_id rows.
Proof.
  unfold next_id. induction rows as [|r rows IH]; simpl; [tauto|].
  intros [->|Hin]; [lia|]. specialize (IH Hin). lia.
Qed.

Lemma insert_desc_perm (t : Turn) (l : list Turn) :
  Permutation (t :: l) (insert_desc t l).
Proof.
  induction l as [|u l IH]; simpl; [reflexivity|].
  destruct (turn_id u <? turn_id t); [reflexivity|].
  rewrite perm_swap. constructor. exact IH.
Qed.

Lemma order_by_id_desc_perm (l : list Turn) : Permutation l (order_by_id_desc l).
Proof.
  induction l as [|t l IH]; simpl; [constructor|].
  rewrite <- insert_desc_perm. constructor. exact IH.
Qed.

Lemma insert_desc_sorted (t : Turn) (l : list Turn) :
  descending l -> descending (insert_desc t l).
Proof.
  unfold descending.
  induction 1 as [|u l Hs IH Hhd]; simpl.
  - repeat constructor.
  - destruct (turn_id u <? turn_id t) eqn:E.
    + apply Z.ltb_lt in E. repeat constructor; auto; lia.
    + apply Z.ltb_ge in E. constructor; [exact IH|].
      destruct Hhd as [|v l' Hv]; simpl.
      * constructor. exact E.
      * destruct (turn_id v <? turn_id t); constructor; auto.
Qed.

Lemma order_by_id_desc_sorted (l : list Turn) : descending (order_by_id_desc l).
Proof.
  induction l as [|t l IH]; simpl; [constructor|].
  apply insert_desc_sorted, IH.
Qed.

(** A row whose id is above all the others comes first. *)
Lemma order_by_id_desc_snoc (l : list Turn) (t : Turn) :
  (forall u, In u l -> turn_id u < turn_id t) ->
  order_by_id_desc (l ++ [t]) = t :: order_by_id_desc l.
Proof.
  induction l as [|a l IH]; intros Hlt; simpl; [reflexivity|].
  rewrite IH by (intros u Hu; apply Hlt; right; exact Hu).
  simpl.
  assert (turn_id a < turn_id t) as Ha by (apply Hlt; left; reflexivity).
  destruct (turn_id t <? turn_id a) eqn:E; [apply Z.ltb_lt in E; lia|reflexivity].
Qed.

Lemma newest_first_add (u v : Z) (role content : str) (d : DB) :
  newest_first u (add_conversation_message v role content d) =
  if v =? u
  then mkTurn (next_id (conversation_history d)) v role content :: newest_first u d
  else newest_first u d.
Proof.
  unfold newest_first, add_conversation_message; simpl.
  rewrite List.filter_app; simpl. unfold of_user at 2; simpl.
  destruct (v =? u).
  - apply order_by_id_desc_snoc. intros t Ht.
    apply List.filter_In in Ht as [Ht _]. apply next_id_above, Ht.
  - rewrite app_nil_r. reflexivity.
Qed.

Lemma newest_first_append_all (u : Z) (l : list (Z * (str * str))) (d : DB) :
  map shown (newest_first u (append_all l d)) =
  rev (turns_of u l) ++ map shown (newest_first u d).
Proof.
  induction l as [|x l IH] using rev_ind; [reflexivity|].
  unfold append_all, turns_of in *.
  rewrite fold_left_app, List.filter_app, map_app, rev_app_distr; simpl.
  rewrite newest_first_add.
  destruct x as [v [role content]]; simpl.
  destruct (v =? u); simpl; [|exact IH].
  rewrite IH. reflexivity.
Qed.

Lemma history_as_newest_first (u limit : Z) (d : DB) :
  get_conversation_history u limit d =
  rev (sql_limit limit (map shown (newest_first u d))).
Proof.
  unfold get_conversation_history, newest_first, sql_limit.
  fold (of_user u). fold shown.
  destruct (limit <? 0); rewrite ?map_rev, ?firstn_map; reflexivity.
Qed.

End ConversationLog.

(** C7.  Conversation Log round trip: after the turns of [l] have been
    appended in order (to any log, and in between the turns of other users),
    [ts] being those of user [u], oldest first, a request for the [k] most
    recent turns of [u], [k] at most the number of turns in [ts], returns
    exactly the last [k] turns of [ts] in their order; the request for as
    many turns as [ts] has returns exactly [ts]. *)
Theorem conversation_log_round_trip
    (d : DB) (l : list (Z * (str * str))) (u : Z) (k : nat) :
  (k <= length (turns_of u l))%nat ->
  get_conversation_history u (Z.of_nat k) (append_all l d)
    = skipn (length (turns_of u l) - k) (turns_of u l)
  /\ get_conversation_history u (Z.of_nat (length (turns_of u l))) (append_all l d)
    = turns_of u l.
Proof.
  intros Hk.
  assert (forall j, (j <= length (turns_of u l))%nat ->
            get_conversation_history u (Z.of_nat j) (append_all l d)
            = skipn (length (turns_of u l) - j) (turns_of u l)) as H.
  { intros j Hj.
    rewrite history_as_newest_first, newest_first_append_all.
    unfold sql_limit.
    destruct (Z.of_nat j <? 0)%Z eqn:E; [apply Z.ltb_lt in E; lia|].
    rewrite Nat2Z.id, firstn_app, length_rev.
    replace (j - length (turns_of u l))%nat with 0%nat by lia.
    rewrite firstn_O, app_nil_r.
    rewrite List.firstn_rev, rev_involutive. reflexivity. }
  split; [apply H, Hk|].
  rewrite H by lia. rewrite Nat.sub_diag. reflexivity.
Qed.

Lemma conversation_log_round_trip_witness :
  (2 <= length (turns_of 7 [(7%Z, ("user", "a")); (8%Z, ("user", "x"));
                             (7%Z, ("assistant", "b")); (7%Z, ("user", "c"))]))%nat
  /\ get_conversation_history 7 2
       (append_all [(7%Z, ("user", "a")); (8%Z, ("user", "x"));
                    (7%Z, ("assistant", "b")); (7%Z, ("user", "c"))] setup_database)
     = [("assistant", "b"); ("user", "c")].
Proof.
  split; [vm_compute; lia|].
  exact (proj1 (conversation_log_round_trip setup_database
                  [(7%Z, ("user", "a")); (8%Z, ("user", "x"));
                   (7%Z, ("assistant", "b")); (7%Z, ("user", "c"))] 7%Z 2
                  ltac:(vm_compute; lia))).
Defined.

(** ** The allowed-channel registry *)

Section Registry.

Local Open Scope Z_scope.

Lemma has_channel_false (cid : Z) (rows : list (Z * str)) :
  has_channel cid rows = false ->
  List.filter (fun r => fst r =? cid) rows = [].
Proof.
  unfold has_channel. induction rows as [|r rows IH]; simpl; [reflexivity|].
  destruct (fst r =? cid); simpl; [discriminate|exact IH].
Qed.

Lemma has_channel_In (cid : Z) (rows : list (Z * str)) :
  has_channel cid rows = false -> ~ In cid (map fst rows).
Proof.
  unfold has_channel. induction rows as [|r rows IH]; simpl; [tauto|].
  destruct (fst r =? cid) eqn:E; simpl; [discriminate|].
  apply Z.eqb_neq in E. intros H [Hr|Hin]; [contradiction|exact (IH H Hin)].
Qed.

Lemma has_channel_true (cid : Z) (rows : list (Z * str)) :
  List.NoDup (map fst rows) -> has_channel cid rows = true ->
  length (List.filter (fun r => fst r =? cid) rows) = 1%nat.
Proof.
  unfold has_channel. induction rows as [|r rows IH]; simpl; [discriminate|].
  intros Hnd. apply List.NoDup_cons_iff in Hnd as [Hr Hnd].
  destruct (fst r =? cid) eqn:E; simpl.
  - intros _. apply Z.eqb_eq in E. subst cid.
    destruct (existsb (fun r0 => fst r0 =? fst r) rows) eqn:Hex.
    + exfalso. apply Hr. apply existsb_exists in Hex as [x [Hx Hfx]].
      apply Z.eqb_eq in Hfx. rewrite <- Hfx. apply in_map, Hx.
    + rewrite (has_channel_false _ _ Hex). reflexivity.
  - apply IH, Hnd.
Qed.

Lemma has_channel_add (cid : Z) (name : str) (d : DB) :
  has_channel cid (allowed_channels (add_allowed_channel cid name d)) = true.
Proof.
  unfold add_allowed_channel; simpl.
  destruct (has_channel cid (allowed_channels d)) eqn:E; [exact E|].
  unfold has_channel. rewrite existsb_app; simpl.
  rewrite Z.eqb_refl, orb_true_r. reflexivity.
Qed.

(** Inserting an id the registry has is a no-op. *)
Lemma add_allowed_channel_present (cid : Z) (name : str) (d : DB) :
  has_channel cid (allowed_channels d) = true -> add_allowed_channel cid name d = d.
Proof.
  intros H. unfold add_allowed_channel. rewrite H. destruct d; reflexivity.
Qed.

Lemma add_allowed_channel_unique (cid : Z) (name : str) (d : DB) :
  unique_channels d -> unique_channels (add_allowed_channel cid name d).
Proof.
  unfold unique_channels, add_allowed_channel; simpl.
  destruct (has_channel cid (allowed_channels d)) eqn:E; [tauto|].
  intros Hnd. rewrite map_app; simpl.
  apply List.NoDup_app; auto.
  - repeat constructor. intros [].
  - intros x Hx [->|[]]. exact (has_channel_In _ _ E Hx).
Qed.

Lemma entries_add (cid : Z) (name : str) (d : DB) :
  unique_channels d -> entries cid (add_allowed_channel cid name d) = 1%nat.
Proof.
  intros Hnd. unfold entries.
  apply has_channel_true; [apply add_allowed_channel_unique, Hnd|apply has_channel_add].
Qed.

Lemma db_handle_set_channel (m : Message) (w : World) :
  db (run (handle_set_channel m) w) =
  add_allowed_channel (channel_id m)
    (match channel_name m with Some n => n | None => "DM" end) (db w).
Proof. reflexivity. Qed.

End Registry.

(** C8.  Channel registration is idempotent: the registry holding at most
    one row per channel id (its primary key), after the handler has run for
    a message of a channel the registry has exactly one entry for that
    channel, and after it has run any number of further times for messages
    of that channel the registry is what it was after the first: the insert
    of an id the registry has is a no-op. *)
Theorem channel_registration_idempotent
    (w : World) (cid : Z) (m : Message) (ms : list Message) :
  unique_channels (db w) ->
  Forall (fun m' => channel_id m' = cid) (m :: ms) ->
  let w1 := run (handle_set_channel m) w in
  let wn := fold_left (fun w' m' => run (handle_set_channel m') w') ms w1 in
  entries cid (db w1) = 1%nat /\ db wn = db w1 /\ entries cid (db wn) = 1%nat.
Proof.
  intros Hnd Hall w1 wn.
  apply Forall_cons_iff in Hall as [Hm Hms].
  assert (entries cid (db w1) = 1%nat) as H1.
  { unfold w1. rewrite db_handle_set_channel, Hm. apply entries_add, Hnd. }
  assert (db wn = db w1) as Hn.
  { assert (has_channel cid (allowed_channels (db w1)) = true) as Hhas.
    { unfold w1. rewrite db_handle_set_channel, Hm. apply has_channel_add. }
    unfold wn. clearbody w1. clear wn H1 Hnd Hm.
    revert w1 Hhas. induction Hms as [|m' ms Hm' Hms IH]; intros w1 Hhas; [reflexivity|].
    simpl. rewrite IH.
    - rewrite db_handle_set_channel, Hm'. apply add_allowed_channel_present, Hhas.
    - rewrite db_handle_set_channel, Hm', add_allowed_channel_present; exact Hhas. }
  rewrite Hn. auto.
Qed.

Lemma channel_registration_idempotent_witness :
  unique_channels (db fresh)
  /\ entries 42
       (db (run (handle_set_channel (guild_message 1 42 "general" "!setchannel"))
              (run (handle_set_channel (guild_message 1 42 "general" "!setchannel")) fresh)))
     = 1%nat.
Proof.
  split; [constructor|].
  exact (proj2 (proj2 (channel_registration_idempotent fresh 42
                         (guild_message 1 42 "general" "!setchannel")
                         [guild_message 1 42 "general" "!setchannel"]
                         ltac:(constructor) ltac:(repeat constructor)))).
Defined.

(** ** Dispatch *)

Lemma startswith_cons_inv (s p : str) (a : ascii) :
  startswith s (a :: p) = true -> exists s', s = a :: s' /\ startswith s' p = true.
Proof.
  destruct s as [|b s]; simpl; [discriminate|].
  destruct (Ascii.eqb_spec a b) as [->|]; [|discriminate].
  intros H. exists s. auto.
Qed.

(** A text has at most one first character. *)
Lemma startswith_other (s p q : str) (a b : ascii) :
  a <> b -> startswith s (a :: p) = true -> startswith s (b :: q) = false.
Proof.
  intros Hab H. apply startswith_cons_inv in H as [s' [-> _]]. simpl.
  destruct (Ascii.eqb_spec b a); congruence.
Qed.

Lemma on_message_set_channel (ex : Executors) (m : Message) :
  author_bot m = false ->
  startswith (lower (content m)) "!setchannel" = true ->
  on_message ex m = handle_set_channel m.
Proof. intros Hb Hs. unfold on_message. rewrite Hb, Hs. reflexivity. Qed.

Lemma on_message_set_language (ex : Executors) (m : Message) :
  author_bot m = false ->
  startswith (lower (content m)) "lum set language to" = true ->
  on_message ex m = handle_set_language m.
Proof.
  intros Hb Hs. unfold on_message. rewrite Hb, Hs.
  rewrite (startswith_other _ _ _ "l" "!" ltac:(discriminate) Hs). reflexivity.
Qed.

Lemma on_message_gated (ex : Executors) (m : Message) (w : World) :
  startswith (lower (content m)) "!setchannel" = false ->
  startswith (lower (content m)) "lum set language to" = false ->
  in_guild m = true ->
  channel_id m ∉ get_allowed_channels (db w) ->
  on_message ex m w = (tt, w).
Proof.
  intros H1 H2 Hg Hc. unfold on_message.
  destruct (author_bot m); [reflexivity|].
  rewrite H1, H2. unfold bind, query. rewrite Hg, bool_decide_eq_false_2 by exact Hc.
  reflexivity.
Qed.

Lemma run_handle_set_channel (m : Message) (w : World) :
  run (handle_set_channel m) w =
  let name := match channel_name m with Some n => n | None => "DM" end in
  mkWorld (add_allowed_channel (channel_id m) name (db w))
          (trace w ++ [Reply ("Channel **" ++ name ++ "** has been set for Lum to speak.")]).
Proof. reflexivity. Qed.

Lemma run_handle_set_language (m : Message) (w : World) :
  run (handle_set_language m) w =
  let language := strip (skipn (length "lum set language to") (content m)) in
  if is_empty language
  then mkWorld (db w)
         (trace w ++ [Reply "please provide a language, e.g. 'lum set language to french'"])
  else mkWorld (set_lum_preference "language" language (db w))
         (trace w ++ [Reply ("Language set to **" ++ language ++ "**.")]).
Proof.
  unfold handle_set_language, truthy. simpl.
  destruct (is_empty _); reflexivity.
Qed.

(** C6.  For every message (of a user that is not a bot) whose text begins,
    whatever the case, with [lum set language to]: the language is what
    follows the phrase, trimmed, that is without the whitespace before its
    first and after its last character that is not whitespace.  When it is
    not empty it is stored as the [language] preference and acknowledged;
    when it is empty, which is when only whitespace follows the phrase, the
    only effect is a reply with a usage hint, and no store is written. *)
Theorem set_language_stores_trimmed_remainder
    (ex : Executors) (m : Message) (w : World) :
  author_bot m = false ->
  startswith (lower (content m)) "lum set language to" = true ->
  let remainder := skipn (length "lum set language to") (content m) in
  let language := strip remainder in
  (exists ws1 ws2,
     remainder = ws1 ++ language ++ ws2 /\ blank ws1 /\ blank ws2 /\ trimmed language)
  /\ (forall ws1 core ws2,
        remainder = ws1 ++ core ++ ws2 -> blank ws1 -> blank ws2 ->
        trimmed core -> core <> [] -> language = core)
  /\ (language <> [] ->
     run (on_message ex m) w =
     mkWorld (set_lum_preference "language" language (db w))
             (trace w ++ [Reply ("Language set to **" ++ language ++ "**.")])
     /\ get_lum_preference "language" (db (run (on_message ex m) w)) = Some language)
  /\ (language = [] ->
     blank remainder
     /\ run (on_message ex m) w =
        mkWorld (db w)
          (trace w ++ [Reply "please provide a language, e.g. 'lum set language to french'"])).
Proof.
  intros Hb Hs remainder language.
  rewrite (on_message_set_language ex m Hb Hs), run_handle_set_language.
  cbv zeta. fold remainder. fold language.
  split; [apply strip_spec|].
  split; [intros ws1 core ws2 -> H1 H2 Hc Hne; apply strip_core; assumption|].
  split.
  - intros Hne. destruct language as [|c l]; [congruence|]. simpl.
    split; [reflexivity|]. unfold get_lum_preference; simpl. apply lookup_insert_eq.
  - intros He. split; [apply strip_blank, He|]. rewrite He. reflexivity.
Qed.

Lemma set_language_stores_trimmed_remainder_witness :
  get_lum_preference "language"
    (db (run (on_message services_down
                (guild_message 1 42 "general" "Lum SET language to   Old French  "))
             fresh))
  = Some "Old French".
Proof.
  assert (strip (skipn (length "lum set language to") "Lum SET language to   Old French  ")
          <> []) as Hne by (vm_compute; discriminate).
  exact (proj2 (proj1 (proj2 (proj2
           (set_language_stores_trimmed_remainder services_down
              (guild_message 1 42 "general" "Lum SET language to   Old French  ") fresh
              eq_refl eq_refl))) Hne)).
Defined.

(** ** The permission gate *)

(** C3, as stated, fails: a message that begins with the set-language phrase
    is answered in a guild channel the registry does not have, and it does
    not begin with the channel-registration token. *)
Lemma permission_gate_counterexample :
  in_guild (guild_message 1 42 "general" "lum set language to french") = true
  /\ (42%Z ∉ get_allowed_channels (db fresh))
  /\ startswith (lower "lum set language to french") "!setchannel" = false
  /\ trace (run (on_message services_down
                    (guild_message 1 42 "general" "lum set language to french")) fresh)
     = [Reply "Language set to **french**."].
Proof.
  repeat split.
  unfold get_allowed_channels; simpl. set_solver.
Qed.

(** C3, amended.  For a message of a user that is not a bot, arriving in a
    guild channel the registry does not have: when its text begins with
    [!setchannel] it is handled by the channel-registration handler, which
    registers the channel and replies; when it begins with
    [lum set language to] it is handled by the set-language handler; in
    every other case nothing is replied and nothing is written. *)
Theorem permission_gate (ex : Executors) (m : Message) (w : World) :
  author_bot m = false ->
  in_guild m = true ->
  channel_id m ∉ get_allowed_channels (db w) ->
  let lower_content := lower (content m) in
  (startswith lower_content "!setchannel" = true ->
     on_message ex m = handle_set_channel m
     /\ has_channel (channel_id m) (allowed_channels (db (run (on_message ex m) w))) = true
     /\ exists text, trace (run (on_message ex m) w) = trace w ++ [Reply text])
  /\ (startswith lower_content "lum set language to" = true ->
     on_message ex m = handle_set_language m)
  /\ (startswith lower_content "!setchannel" = false ->
      startswith lower_content "lum set language to" = false ->
      run (on_message ex m) w = w).
Proof.
  intros Hb Hg Hc lower_content. repeat split.
  - apply on_message_set_channel; assumption.
  - rewrite on_message_set_channel, run_handle_set_channel by assumption.
    apply has_channel_add.
  - rewrite on_message_set_channel, run_handle_set_channel by assumption.
    eexists. reflexivity.
  - intros Hs. apply on_message_set_language; assumption.
  - intros H1 H2. unfold run. rewrite on_message_gated by assumption. reflexivity.
Qed.

Lemma permission_gate_witness :
  on_message services_down (guild_message 1 42 "general" "!SetChannel please")
  = handle_set_channel (guild_message 1 42 "general" "!SetChannel please")
  /\ run (on_message services_down (guild_message 1 42 "general" "hey lum, you there?")) fresh
     = fresh.
Proof.
  pose proof (permission_gate services_down
                (guild_message 1 42 "general" "!SetChannel please") fresh
                eq_refl eq_refl ltac:(unfold get_allowed_channels; simpl; set_solver)) as H1.
  pose proof (permission_gate services_down
                (guild_message 1 42 "general" "hey lum, you there?") fresh
                eq_refl eq_refl ltac:(unfold get_allowed_channels; simpl; set_solver)) as H2.
  split.
  - exact (proj1 (proj1 H1 eq_refl)).
  - exact (proj2 (proj2 H2) eq_refl eq_refl).
Defined.

(** ** Plain conversation *)

Lemma run_handle_bot_message (ex : Executors) (m : Message) (w : World) :
  run (handle_bot_message ex m) w =
  let d1 := with_user_turn m (db w) in
  let messages := converse_messages m d1 in
  match chat_completion ex messages 200 with
  | Some text =>
      mkWorld (add_conversation_message (author_id m) "assistant" (lower text) d1)
              (trace w ++ [Typing; ChatCompletion messages 200; Reply (lower text)])
  | None =>
      mkWorld d1 (trace w ++ [Typing; ChatCompletion messages 200;
                              Print "OpenAI response error"])
  end.
Proof.
  unfold handle_bot_message, run, bind, emit, update, query, reply; simpl.
  fold (with_user_turn m (db w)). fold (converse_messages m (with_user_turn m (db w))).
  destruct (chat_completion ex _ 200); simpl; rewrite <- !app_assoc; reflexivity.
Qed.

(** Case analysis on what a handler tests, down to the worlds it returns. *)
Ltac handler_cases :=
  unfold run, bind, emit, update, query, reply, ret; simpl;
  repeat (match goal with
          | |- context [match ?x with _ => _ end] => destruct x
          end; simpl);
  try reflexivity.

(** Only [handle_bot_message] writes to the log. *)
Lemma handle_set_channel_log (m : Message) (w : World) :
  conversation_history (db (run (handle_set_channel m) w)) = conversation_history (db w).
Proof. reflexivity. Qed.

Lemma handle_set_language_log (m : Message) (w : World) :
  conversation_history (db (run (handle_set_language m) w)) = conversation_history (db w).
Proof. unfold handle_set_language. handler_cases. Qed.

Lemma handle_set_opinion_log (m : Message) (w : World) :
  conversation_history (db (run (handle_set_opinion m) w)) = conversation_history (db w).
Proof. unfold handle_set_opinion. handler_cases. Qed.

Lemma handle_get_opinion_log (ex : Executors) (m : Message) (w : World) :
  conversation_history (db (run (handle_get_opinion ex m) w)) = conversation_history (db w).
Proof. unfold handle_get_opinion. handler_cases. Qed.

Lemma handle_image_generation_log (ex : Executors) (m : Message) (o : option str) (w : World) :
  conversation_history (db (run (handle_image_generation ex m o) w))
  = conversation_history (db w).
Proof. unfold handle_image_generation. handler_cases. Qed.

Lemma handle_random_gif_log (ex : Executors) (m : Message) (w : World) :
  conversation_history (db (run (handle_random_gif ex m) w)) = conversation_history (db w).
Proof. unfold handle_random_gif. handler_cases. Qed.

Lemma handle_gif_search_log (ex : Executors) (m : Message) (o : option str) (w : World) :
  conversation_history (db (run (handle_gif_search ex m o) w)) = conversation_history (db w).
Proof. unfold handle_gif_search, handle_random_gif. handler_cases. Qed.

Lemma run_query {A} (f : DB -> A) (k : A -> M unit) (w : World) :
  run (bind (query f) k) w = run (k (f (db w))) w.
Proof. reflexivity. Qed.

Lemma on_message_log (ex : Executors) (m : Message) (w : World) :
  conversation_history (db (run (on_message ex m) w)) = conversation_history (db w)
  \/ run (on_message ex m) w = run (handle_bot_message ex m) w.
Proof.
  unfold on_message.
  destruct (author_bot m); [left; reflexivity|].
  destruct (startswith _ "!setchannel"); [left; apply handle_set_channel_log|].
  destruct (startswith _ "lum set language to"); [left; apply handle_set_language_log|].
  rewrite run_query.
  destruct (in_guild m && _); [left; reflexivity|].
  destruct (startswith _ "!gif"); [left; apply handle_gif_search_log|].
  destruct (startswith _ "!img"); [left; apply handle_image_generation_log|].
  destruct (is_message_directed_at_bot m); [|left; reflexivity].
  destruct (startswith _ "lum set your opinion on"); [left; apply handle_set_opinion_log|].
  destruct (startswith _ "lum what" && _); [left; apply handle_get_opinion_log|].
  destruct (generate_prompt _); [left; apply handle_image_generation_log|].
  destruct (contains _ "with a gif" || _).
  { destruct (truthy _); [left; apply handle_gif_search_log|left; reflexivity]. }
  destruct (contains _ "give me" && _); [left; apply handle_random_gif_log|].
  right. reflexivity.
Qed.





(** The turn of the user is the last of the history sent to the text
    generation. *)
Lemma history_ends_with_user_turn (m : Message) (d : DB) :
  List.last (get_conversation_history (author_id m) 10 (with_user_turn m d)) ("", "")
  = ("user", strip (lower (content m))).
Proof.
  rewrite history_as_newest_first. unfold with_user_turn.
  rewrite newest_first_add, Z.eqb_refl.
  change (sql_limit 10 (map shown (?t :: ?l))) with (shown t :: firstn 9 (map shown l)).
  change (rev (?x :: ?l)) with (rev l ++ [x]).
  apply List.last_last.
Qed.

(** On the code points below U+0100 the texts of [Unicode] are those of the
    rest of this development. *)
Lemma unicode_lower_of_str (s : str) :
  Unicode.lower (Unicode.of_str s) = Unicode.of_str (lower s).
Proof. unfold Unicode.lower, Unicode.of_str, lower. rewrite !map_map. reflexivity. Qed.

Lemma unicode_rstrip_of_str (s : str) :
  Unicode.rstrip (Unicode.of_str s) = Unicode.of_str (rstrip s).
Proof.
  induction s as [|c s IH]; [reflexivity|].
  rewrite rstrip_cons. change (Unicode.of_str (c :: s)) with (Unicode.Below256 c :: Unicode.of_str s).
  unfold Unicode.rstrip in *. cbn [fold_right]. rewrite IH. cbn [Unicode.isspace].
  destruct (rstrip s); destruct (isspace c); reflexivity.
Qed.

Lemma unicode_lstrip_of_str (s : str) :
  Unicode.lstrip (Unicode.of_str s) = Unicode.of_str (lstrip s).
Proof.
  unfold lstrip. induction s as [|c s IH]; [reflexivity|].
  cbn [Unicode.of_str map Unicode.lstrip Unicode.isspace drop_while].
  destruct (isspace c); [exact IH|reflexivity].
Qed.

Lemma unicode_user_turn_of_str (s : str) :
  Unicode.user_turn (Unicode.of_str s) = Unicode.of_str (strip (lower s)).
Proof.
  unfold Unicode.user_turn, Unicode.strip, strip.
  rewrite unicode_lower_of_str, unicode_rstrip_of_str, unicode_lstrip_of_str. reflexivity.
Qed.

Lemma unicode_isupper_of_str (s : str) :
  no_upper s <-> Forall (fun p => Unicode.isupper p = false) (Unicode.of_str s).
Proof.
  unfold no_upper, Unicode.of_str. rewrite List.Forall_map. reflexivity.
Qed.




(** ** Failing services *)

(** C1, as stated, fails: the text generation being down, a plain message
    leaves its user turn in the Conversation Log and gets no reply at all. *)
Lemma upstream_failure_counterexample :
  chat_completion services_down
    (converse_messages (direct_message 7 5 "how are you?")
       (with_user_turn (direct_message 7 5 "how are you?") (db fresh))) 200 = None
  /\ conversation_history
       (db (run (on_message services_down (direct_message 7 5 "how are you?")) fresh))
     = [mkTurn 1 7 "user" "how are you?"]
  /\ forall text : str,
       ~ In (Reply text)
            (trace (run (on_message services_down (direct_message 7 5 "how are you?")) fresh)).
Proof.
  split; [reflexivity|]. split; [reflexivity|].
  intros text. vm_compute. intros [H|[H|[H|[]]]]; discriminate.
Qed.

Lemma run_handle_get_opinion_miss (ex : Executors) (m : Message) (w : World) (caps : captures) :
  re_search true get_opinion_pattern (content m) = Some caps ->
  let subject := strip (group caps 1) in
  if_set (get_lum_preference subject (db w)) = None ->
  let messages := opinion_messages subject (get_lum_preference "language" (db w)) in
  run (handle_get_opinion ex m) w =
  match chat_completion ex messages 60 with
  | Some text =>
      mkWorld (set_lum_preference subject (strip text) (db w))
        (trace w ++ [ChatCompletion messages 60;
                     Reply ("My opinion on **" ++ subject ++ "** is: " ++ strip text)])
  | None =>
      mkWorld (db w)
        (trace w ++ [ChatCompletion messages 60;
                     Reply "Sorry, I couldn't generate an opinion on that right now.";
                     Print "Error generating opinion"])
  end.
Proof.
  intros Hre subject Hmiss messages.
  unfold handle_get_opinion. rewrite Hre. fold subject.
  unfold run, bind, query; simpl. rewrite Hmiss. fold messages.
  unfold emit, update, reply; simpl.
  destruct (chat_completion ex messages 60); simpl; rewrite <- !app_assoc; reflexivity.
Qed.

Lemma run_handle_get_opinion_hit (ex : Executors) (m : Message) (w : World)
    (caps : captures) (o : str) :
  re_search true get_opinion_pattern (content m) = Some caps ->
  let subject := strip (group caps 1) in
  if_set (get_lum_preference subject (db w)) = Some o ->
  run (handle_get_opinion ex m) w =
  mkWorld (db w) (trace w ++ [Reply ("My opinion on **" ++ subject ++ "** is: " ++ o)]).
Proof.
  intros Hre subject Hhit.
  unfold handle_get_opinion. rewrite Hre. fold subject.
  unfold run, bind, query; simpl. rewrite Hhit. reflexivity.
Qed.

(** C1, amended.  When the text generation fails on a plain message, the
    turn of the user, saved before the call, stays in the Conversation Log,
    no assistant turn is written and no other table changes.  When the
    service behind one of the other handlers fails (the text generation for
    an opinion, the image generation, the GIF search, the random GIF), no table
    changes and the reply is a generic apology. *)
Theorem upstream_failure (ex : Executors) (m : Message) (w : World) :
  (chat_completion ex (converse_messages m (with_user_turn m (db w))) 200 = None ->
     db (run (handle_bot_message ex m) w) = with_user_turn m (db w)
     /\ conversation_history (db (run (handle_bot_message ex m) w))
        = conversation_history (db w)
          ++ [mkTurn (next_id (conversation_history (db w))) (author_id m) "user"
                     (strip (lower (content m)))]
     /\ user_memory (db (run (handle_bot_message ex m) w)) = user_memory (db w)
     /\ lum_preferences (db (run (handle_bot_message ex m) w)) = lum_preferences (db w)
     /\ allowed_channels (db (run (handle_bot_message ex m) w)) = allowed_channels (db w))
  /\ (forall caps : captures,
        re_search true get_opinion_pattern (content m) = Some caps ->
        if_set (get_lum_preference (strip (group caps 1)) (db w)) = None ->
        chat_completion ex
          (opinion_messages (strip (group caps 1)) (get_lum_preference "language" (db w)))
          60 = None ->
        run (handle_get_opinion ex m) w =
        mkWorld (db w)
          (trace w
           ++ [ChatCompletion
                 (opinion_messages (strip (group caps 1))
                    (get_lum_preference "language" (db w))) 60;
               Reply "Sorry, I couldn't generate an opinion on that right now.";
               Print "Error generating opinion"]))
  /\ (forall prompt : str,
        truthy prompt = true ->
        image_create ex prompt = None ->
        run (handle_image_generation ex m (Some prompt)) w =
        mkWorld (db w)
          (trace w ++ [Typing; ImageCreate prompt;
                       Reply "sorry, there was an error generating the image.";
                       Print "Image generation error"]))
  /\ (forall q : str,
        truthy q = true ->
        giphy_api_key ex = true ->
        giphy_search ex q = SearchRaised ->
        run (handle_gif_search ex m (Some q)) w =
        mkWorld (db w)
          (trace w ++ [Typing; GiphySearch q;
                       Reply "sorry, there was an error searching for a gif.";
                       Print "Giphy API error"]))
  /\ (giphy_api_key ex = true ->
      giphy_random ex = RandomRaised ->
      run (handle_random_gif ex m) w =
      mkWorld (db w)
        (trace w ++ [Typing; GiphyRandom;
                     Reply "sorry, there was an error fetching a random gif.";
                     Print "Giphy API error"])).
Proof.
  repeat apply conj.
  - intros Hfail. rewrite run_handle_bot_message. cbv zeta. rewrite Hfail.
    repeat split.
  - intros caps Hre Hmiss Hfail.
    rewrite (run_handle_get_opinion_miss ex m w caps Hre Hmiss). cbv zeta.
    rewrite Hfail. reflexivity.
  - intros prompt Hp Hfail. unfold handle_image_generation. rewrite Hp; simpl.
    unfold run, bind, emit, reply; simpl. rewrite Hfail; simpl.
    rewrite <- !app_assoc. reflexivity.
  - intros q Hq Hkey Hfail. unfold handle_gif_search. rewrite Hq, Hkey; simpl.
    unfold run, bind, emit, reply; simpl. rewrite Hfail; simpl.
    rewrite <- !app_assoc. reflexivity.
  - intros Hkey Hfail. unfold handle_random_gif. rewrite Hkey; simpl.
    unfold run, bind, emit, reply; simpl. rewrite Hfail; simpl.
    rewrite <- !app_assoc. reflexivity.
Qed.

Lemma upstream_failure_witness :
  conversation_history
    (db (run (handle_bot_message services_down (direct_message 7 5 "how are you?")) fresh))
  = [mkTurn 1 7 "user" "how are you?"]
  /\ run (handle_image_generation services_down (direct_message 7 5 "!img a cat") (Some "a cat"))
         fresh
     = mkWorld (db fresh)
         [Typing; ImageCreate "a cat";
          Reply "sorry, there was an error generating the image.";
          Print "Image generation error"].
Proof.
  split.
  - exact (proj1 (proj2 (proj1 (upstream_failure services_down
                                  (direct_message 7 5 "how are you?") fresh) eq_refl))).
  - exact (proj1 (proj2 (proj2 (upstream_failure services_down
                                  (direct_message 7 5 "!img a cat") fresh)))
             "a cat" eq_refl eq_refl).
Defined.

(** ** Opinions *)

Lemma if_set_some (s : str) : s <> [] -> if_set (Some s) = Some s.
Proof. destruct s; [congruence|reflexivity]. Qed.

(** C4, as stated, fails: when the generated text is blank, the empty text
    is stored under the subject, the next identical query finds it, takes it
    for no opinion and asks the text generation again. *)
Lemma opinion_memoized_counterexample :
  get_lum_preference "pizza" (db fresh) = None
  /\ get_lum_preference "pizza"
       (db (run (on_message (services_saying " ")
                   (direct_message 7 5 "lum what's your opinion on pizza")) fresh))
     = Some ""
  /\ trace (run (on_message (services_saying "it's great")
                   (direct_message 7 5 "lum what's your opinion on pizza"))
              (run (on_message (services_saying " ")
                      (direct_message 7 5 "lum what's your opinion on pizza")) fresh))
     = [ChatCompletion (opinion_messages "pizza" None) 60;
        Reply "My opinion on **pizza** is: ";
        ChatCompletion (opinion_messages "pizza" None) 60;
        Reply "My opinion on **pizza** is: it's great"].
Proof. repeat split. Qed.

(** C4, amended.  GetOpinion is generate-and-memoize for a text that is not
    blank: for a query whose subject has no stored opinion, and a generated
    text that is not empty once trimmed, the first query invokes the text
    generation and stores the trimmed text under the subject; from then on,
    as long as that value is the one stored, the same query, whatever the
    services, is answered with the stored value verbatim, without a call of
    the text generation and without a write. *)
Theorem opinion_memoized
    (ex : Executors) (m : Message) (w : World) (caps : captures) (text : str) :
  re_search true get_opinion_pattern (content m) = Some caps ->
  get_lum_preference (strip (group caps 1)) (db w) = None ->
  chat_completion ex
    (opinion_messages (strip (group caps 1)) (get_lum_preference "language" (db w))) 60
    = Some text ->
  strip text <> [] ->
  let subject := strip (group caps 1) in
  let answer := Reply ("My opinion on **" ++ subject ++ "** is: " ++ strip text) in
  run (handle_get_opinion ex m) w =
    mkWorld (set_lum_preference subject (strip text) (db w))
      (trace w
       ++ [ChatCompletion
             (opinion_messages subject (get_lum_preference "language" (db w))) 60;
           answer])
  /\ get_lum_preference subject (db (run (handle_get_opinion ex m) w)) = Some (strip text)
  /\ forall (ex' : Executors) (w' : World),
       get_lum_preference subject (db w') = Some (strip text) ->
       run (handle_get_opinion ex' m) w' = mkWorld (db w') (trace w' ++ [answer]).
Proof.
  intros Hre Hnone Hgen Htext subject answer.
  assert (run (handle_get_opinion ex m) w =
          mkWorld (set_lum_preference subject (strip text) (db w))
            (trace w
             ++ [ChatCompletion
                   (opinion_messages subject (get_lum_preference "language" (db w))) 60;
                 answer])) as Hrun.
  { rewrite (run_handle_get_opinion_miss ex m w caps Hre).
    - cbv zeta. rewrite Hgen. reflexivity.
    - rewrite Hnone. reflexivity. }
  split; [exact Hrun|]. split.
  - rewrite Hrun. unfold get_lum_preference; simpl. apply lookup_insert_eq.
  - intros ex' w' Hstored.
    apply (run_handle_get_opinion_hit ex' m w' caps (strip text) Hre).
    unfold subject in Hstored. rewrite Hstored. apply if_set_some, Htext.
Qed.

Lemma opinion_memoized_witness :
  run (handle_get_opinion services_down (direct_message 7 5 "lum what's your opinion on pizza"))
      (run (handle_get_opinion (services_saying " it's great ")
              (direct_message 7 5 "lum what's your opinion on pizza")) fresh)
  = mkWorld (set_lum_preference "pizza" "it's great" setup_database)
      [ChatCompletion (opinion_messages "pizza" None) 60;
       Reply "My opinion on **pizza** is: it's great";
       Reply "My opinion on **pizza** is: it's great"].
Proof.
  destruct (opinion_memoized (services_saying " it's great ")
              (direct_message 7 5 "lum what's your opinion on pizza") fresh
              [(1%nat, "pizza")] " it's great "
              eq_refl eq_refl eq_refl ltac:(vm_compute; discriminate))
    as [H1 [H2 H3]].
  rewrite (H3 services_down _ H2), H1. reflexivity.
Defined.

(** ** Matching *)

Section Repetition.

Variables (cls : ascii -> bool) (c : captures) (k : cont).

Lemma take_drop_while (s : str) : take_while cls s ++ drop_while cls s = s.
Proof.
  induction s as [|b s IH]; simpl; [reflexivity|].
  destruct (cls b); simpl; [rewrite IH|]; reflexivity.
Qed.

Lemma take_while_all (s : str) : Forall (fun b => cls b = true) (take_while cls s).
Proof.
  induction s as [|b s IH]; simpl; [constructor|].
  destruct (cls b) eqn:E; constructor; auto.
Qed.

Lemma drop_while_stops (s : str) : stops cls (drop_while cls s).
Proof.
  induction s as [|b s IH]; simpl; [exact I|].
  destruct (cls b) eqn:E; [exact IH|exact E].
Qed.

(** A greedy repetition whose continuation succeeds after the longest run
    returns what the continuation returns there. *)
Lemma rep_greedy_run (run rest : str) (least : nat) (prev : option ascii) (m : captures) :
  Forall (fun b => cls b = true) run ->
  stops cls rest ->
  (least <= length run)%nat ->
  k (after prev run) rest c = Some m ->
  rep_match true cls least prev (run ++ rest) c k = Some m.
Proof.
  intros Hrun Hstop. revert least prev.
  induction Hrun as [|b run Hb Hrun IH]; intros least prev Hle Hk; simpl in *.
  - assert (least = 0)%nat as -> by lia.
    destruct rest as [|b rest]; simpl in *; [exact Hk|].
    rewrite Hstop. exact Hk.
  - rewrite Hb. rewrite (IH (pred least) (Some b)); [reflexivity|lia|exact Hk].
Qed.

(** Whatever a repetition returns, its continuation returned after a run of
    the class at least as long as asked. *)
Lemma rep_sound (greedy : bool) (s : str) (least : nat) (prev : option ascii) (m : captures) :
  rep_match greedy cls least prev s c k = Some m ->
  exists run rest,
    s = run ++ rest /\ Forall (fun b => cls b = true) run
    /\ (least <= length run)%nat /\ k (after prev run) rest c = Some m.
Proof.
  revert least prev m.
  induction s as [|b s IH]; intros least prev m H.
  - exists [], [].
    assert (least = 0%nat /\ k prev [] c = Some m) as [-> Hk].
    { destruct greedy, least; simpl in H; try discriminate; auto.
      destruct (k prev [] c); [auto|discriminate]. }
    repeat split; auto.
  - assert (forall m', rep_match greedy cls (pred least) (Some b) s c k = Some m' ->
              cls b = true ->
              exists run rest,
                b :: s = run ++ rest /\ Forall (fun b => cls b = true) run
                /\ (least <= length run)%nat /\ k (after prev run) rest c = Some m') as Hmore.
    { intros m' Hm' Hb. apply IH in Hm' as [run [rest [-> [Hrun [Hle Hk]]]]].
      exists (b :: run), rest. repeat split; auto. simpl. lia. }
    assert (forall m', k prev (b :: s) c = Some m' -> least = 0%nat ->
              exists run rest,
                b :: s = run ++ rest /\ Forall (fun b => cls b = true) run
                /\ (least <= length run)%nat /\ k (after prev run) rest c = Some m') as Hstop.
    { intros m' Hm' ->. exists [], (b :: s). repeat split; auto. }
    destruct greedy; simpl in H.
    + destruct (cls b) eqn:Hb.
      * destruct (rep_match true cls (pred least) (Some b) s c k) eqn:E.
        -- inversion H; subst. apply Hmore; auto.
        -- destruct least; [|discriminate]. apply Hstop; auto.
      * destruct least; [|discriminate]. apply Hstop; auto.
    + destruct least.
      * destruct (k prev (b :: s) c) eqn:E.
        -- inversion H; subst. apply Hstop; auto.
        -- destruct (cls b) eqn:Hb; [|discriminate]. apply Hmore; auto.
      * destruct (cls b) eqn:Hb; [|discriminate]. apply Hmore; auto.
Qed.

End Repetition.

Lemma lit_match_sound (l s s' : str) (p p' : option ascii) :
  lit_match false l p s = Some (p', s') -> s = l ++ s' /\ p' = after p l.
Proof.
  revert s p. induction l as [|a l IH]; intros s p H; simpl in H.
  - inversion H. auto.
  - destruct s as [|b s]; [discriminate|]. unfold char_eq in H.
    destruct (Ascii.eqb_spec a b) as [->|]; [|discriminate].
    apply IH in H as [-> ->]. auto.
Qed.

Lemma tail_lum (ws rest : str) (t : ascii) (p : option ascii) (c : captures) :
  ws <> [] -> blank ws -> isspace t = false ->
  take_while isword (t :: rest) <> "lum" ->
  rmatch false (cat [Lit " lum"; WordB]) p (ws ++ t :: rest) c accept = None.
Proof.
  intros Hne Hws Ht Hname.
  cbn [cat fold_right rmatch].
  destruct (lit_match false " lum" p (ws ++ t :: rest)) as [[p' s']|] eqn:E; [|reflexivity].
  apply lit_match_sound in E as [HX ->].
  destruct ws as [|w0 [|w1 ws]]; [congruence| |].
  - injection HX as -> -> ->. 
    destruct s' as [|x s']; [exfalso; apply Hname; reflexivity|].
    destruct (isword x) eqn:Hx.
    + cbn. rewrite Hx. reflexivity.
    + exfalso. apply Hname. cbn. rewrite Hx. reflexivity.
  - exfalso. injection HX as -> -> _.
    apply Forall_cons_iff in Hws as [_ Hws]. apply Forall_cons_iff in Hws as [Hw _].
    discriminate.
Qed.

Lemma tail_alone (ws rest : str) (t : ascii) (p : option ascii) (c : captures) :
  blank ws -> isspace t = false ->
  rmatch false (cat [spaces0; Eol]) p (ws ++ t :: rest) c accept = None.
Proof.
  intros Hws Ht.
  cbn [cat fold_right rmatch spaces0].
  match goal with |- ?x = None => destruct x as [m|] eqn:E end; [|reflexivity].
  exfalso.
  apply rep_sound in E as [run [rest' [HX [Hrun [_ Hk]]]]].
  assert (blank rest') as Hrest.
  { destruct rest' as [|a [|b rest']]; [constructor| |discriminate].
    destruct (code a =? 10)%N eqn:Ha; [|discriminate].
    repeat constructor. apply isspace_newline. unfold notnewline. rewrite Ha. reflexivity. }
  assert (blank (ws ++ t :: rest)) as Hall.
  { rewrite HX. apply Forall_app. split; assumption. }
  apply Forall_app in Hall as [_ Hall]. apply Forall_cons_iff in Hall as [Ht' _].
  congruence.
Qed.

Lemma tail_other (ws rest : str) (t : ascii) (p : option ascii) (c : captures) :
  ws <> [] -> blank ws -> isspace t = false ->
  rmatch false (cat [spaces1; nonspaces1]) p (ws ++ t :: rest) c accept = Some c.
Proof.
  intros Hne Hws Ht.
  cbn [cat fold_right rmatch spaces1 nonspaces1].
  apply rep_greedy_run.
  - exact Hws.
  - exact Ht.
  - destruct ws; [congruence|simpl; lia].
  - rewrite <- (take_drop_while nonspace (t :: rest)).
    apply rep_greedy_run.
    + apply take_while_all.
    + apply drop_while_stops.
    + simpl. unfold nonspace at 1. rewrite Ht. simpl. lia.
    + reflexivity.
Qed.

Lemma greeting_head_none (R : list regex) (G X : str) :
  In G greeting_words ->
  (forall p c, rmatch false (cat R) p X c accept = None) ->
  re_match false (cat (Bol :: Group 1 (any_of greeting_words) :: R)) (G ++ X) = None.
Proof.
  intros HG HR. unfold re_match.
  simpl in HG. destruct HG as [<-|[<-|[<-|[<-|[<-|[]]]]]]; simpl; rewrite ?HR; reflexivity.
Qed.

Lemma greeting_head_some (R : list regex) (G X : str) :
  In G greeting_words ->
  (forall p c, exists m, rmatch false (cat R) p X c accept = Some m) ->
  exists m, re_match false (cat (Bol :: Group 1 (any_of greeting_words) :: R)) (G ++ X) = Some m.
Proof.
  intros HG HR. unfold re_match.
  simpl in HG. destruct HG as [<-|[<-|[<-|[<-|[<-|[]]]]]]; simpl.
  all: match goal with
       | |- context [rmatch false _ ?p _ ?c accept] =>
           destruct (HR p c) as [m Hm]; rewrite Hm
       end; eexists; reflexivity.
Qed.

(** C5.  A message that is neither direct nor a mention, and whose
    normalized text is a greeting word, then whitespace, then a name (the
    longest run of word characters there) that is not [lum], is not directed
    at the bot, whatever follows: a question mark at the end or a trigger
    phrase changes nothing, since the greeting to someone else is decided
    before the trigger words and the question mark are looked at. *)
Theorem greeting_to_someone_else
    (m : Message) (G ws rest : str) (t : ascii) :
  is_dm m = false ->
  mentions_bot m = false ->
  strip (lower (content m)) = G ++ ws ++ t :: rest ->
  In G greeting_words ->
  ws <> [] -> blank ws -> isspace t = false ->
  take_while isword (t :: rest) <> "lum" ->
  is_message_directed_at_bot m = false.
Proof.
  intros Hdm Hmen Hc HG Hne Hws Ht Hname.
  unfold is_message_directed_at_bot. rewrite Hdm, Hmen, Hc.
  cbn [existsb greeting_patterns]. unfold matches.
  unfold greeting_lum, greeting_alone, greeting_other.
  rewrite (greeting_head_none [Lit " lum"; WordB]) by
    (auto; intros; apply tail_lum; auto).
  rewrite (greeting_head_none [spaces0; Eol]) by
    (auto; intros; apply tail_alone; auto).
  destruct (greeting_head_some [spaces1; nonspaces1] G (ws ++ t :: rest) HG) as [x ->].
  { intros. eexists. apply tail_other; auto. }
  reflexivity.
Qed.

Lemma greeting_to_someone_else_witness :
  endswith (strip (lower "Hi John, how are you?")) "?" = true
  /\ is_message_directed_at_bot (guild_message 1 42 "general" "Hi John, how are you?") = false.
Proof.
  split; [reflexivity|].
  apply (greeting_to_someone_else
           (guild_message 1 42 "general" "Hi John, how are you?")
           "hi" " " "ohn, how are you?" "j");
    try reflexivity.
  - right. left. reflexivity.
  - discriminate.
  - repeat constructor.
  - vm_compute. discriminate.
Defined.

(** ** Requests for an image in natural language *)

Lemma greeting_needs_greeting (r : regex) (Z : str) :
  In r [greeting_lum; greeting_alone; greeting_other] ->
  matches r ("l"%char :: Z) = false.
Proof.
  intros [<-|[<-|[<-|[]]]]; vm_compute; reflexivity.
Qed.

Lemma directed_at_lum (m : Message) (Y : str) :
  lower (content m) = "l"%char :: "u"%char :: "m"%char :: Y ->
  is_message_directed_at_bot m = true.
Proof.
  intros H. unfold is_message_directed_at_bot.
  destruct (is_dm m); [reflexivity|]. destruct (mentions_bot m); [reflexivity|].
  rewrite H. unfold strip. rewrite !rstrip_cons.
  change (isspace "l") with false. change (isspace "u") with false.
  change (isspace "m") with false. cbn [andb lstrip drop_while].
  change (isspace "l") with false. cbv iota.
  cbn [existsb greeting_patterns].
  rewrite !greeting_needs_greeting by (simpl; auto).
  reflexivity.
Qed.

Lemma firstn_length_app (a b : str) : firstn (length (a ++ b) - length b) (a ++ b) = a.
Proof.
  rewrite length_app. replace (length a + length b - length b)%nat with (length a) by lia.
  rewrite firstn_app, Nat.sub_diag, firstn_all. simpl. apply app_nil_r.
Qed.

Lemma nonspace_notnewline (a : ascii) : isspace a = false -> notnewline a = true.
Proof.
  intros H. destruct (notnewline a) eqn:E; [reflexivity|].
  apply isspace_newline in E. congruence.
Qed.

Lemma lit_match_app (l s : str) (p : option ascii) :
  lit_match false l p (l ++ s) = Some (after p l, s).
Proof.
  revert p. induction l as [|a l IH]; intros p; simpl; [reflexivity|].
  unfold char_eq. rewrite Ascii.eqb_refl. apply IH.
Qed.

Lemma rmatch_lit (l s : str) (p : option ascii) (c : captures) (k : cont) :
  rmatch false (Lit l) p (l ++ s) c k = k (after p l) s c.
Proof. cbn [rmatch]. rewrite lit_match_app. reflexivity. Qed.

(** A run captured by [(.+)] at the end of a pattern. *)
Lemma rmatch_group_run (ic : bool) (n : nat) (run rest : str) (p : option ascii)
    (c : captures) :
  Forall (fun b => notnewline b = true) run -> stops notnewline rest ->
  (1 <= length run)%nat ->
  rmatch ic (cat [Group n rest1]) p (run ++ rest) c accept = Some ((n, run) :: c).
Proof.
  intros Hrun Hstop Hlen. cbn [cat fold_right rmatch rest1].
  apply rep_greedy_run; auto.
  cbn [lit_match accept]. rewrite firstn_length_app. reflexivity.
Qed.

Lemma rmatch_group_line (ic : bool) (n : nat) (a : ascii) (s : str) (p : option ascii)
    (c : captures) :
  notnewline a = true ->
  rmatch ic (cat [Group n rest1]) p (a :: s) c accept
  = Some ((n, take_while notnewline (a :: s)) :: c).
Proof.
  intros Ha.
  rewrite <- (take_drop_while notnewline (a :: s)) at 1.
  apply rmatch_group_run.
  - apply take_while_all.
  - apply drop_while_stops.
  - simpl. rewrite Ha. simpl. lia.
Qed.

Lemma rmatch_spaces_then (ic : bool) (R : list regex) (ws s : str) (a : ascii)
    (p : option ascii) (c m : captures) :
  ws <> [] -> blank ws -> isspace a = false ->
  rmatch ic (cat R) (after p ws) (a :: s) c accept = Some m ->
  rmatch ic (cat (spaces1 :: R)) p (ws ++ a :: s) c accept = Some m.
Proof.
  intros Hne Hws Ha Hk. cbn [cat fold_right rmatch spaces1].
  apply rep_greedy_run.
  - exact Hws.
  - exact Ha.
  - destruct ws; [congruence|simpl; lia].
  - exact Hk.
Qed.

Lemma rmatch_lit_then (R : list regex) (l s : str) (p : option ascii) (c : captures) :
  rmatch false (cat (Lit l :: R)) p (l ++ s) c accept
  = rmatch false (cat R) (after p l) s c accept.
Proof. cbn [cat fold_right rmatch]. rewrite lit_match_app. reflexivity. Qed.

Lemma search_from_hit (ic : bool) (r : regex) (p : option ascii) (s : str) (m : captures) :
  rmatch ic r p s [] accept = Some m -> search_from ic r p s = Some m.
Proof. intros H. destruct s; simpl; rewrite H; reflexivity. Qed.

Lemma rmatch_group_sound (n : nat) (s : str) (p : option ascii) (c m : captures) :
  rmatch false (cat [Group n rest1]) p s c accept = Some m ->
  exists j, m = (n, firstn j s) :: c.
Proof.
  cbn [cat fold_right rmatch rest1]. intros H.
  apply rep_sound in H as [run [rest [-> [_ [_ H]]]]].
  cbn [lit_match accept] in H. inversion H. eexists. reflexivity.
Qed.

Lemma rmatch_spaces_sound (R : list regex) (s : str) (p : option ascii) (c m : captures) :
  rmatch false (cat (spaces1 :: R)) p s c accept = Some m ->
  exists run rest,
    s = run ++ rest /\ blank run /\ (1 <= length run)%nat
    /\ rmatch false (cat R) (after p run) rest c accept = Some m.
Proof.
  cbn [cat fold_right rmatch spaces1]. intros H.
  apply rep_sound in H. exact H.
Qed.

Lemma blank_firstn (j : nat) (s : str) : blank s -> blank (firstn j s).
Proof.
  intros H. revert j. induction H as [|b s Hb Hs IH]; intros [|j]; simpl;
    try constructor; auto. apply IH.
Qed.

Lemma blank_app_r (a b : str) : blank (a ++ b) -> blank b.
Proof. intros H. apply Forall_app in H as [_ H]. exact H. Qed.

Lemma generate_needs_l (p : option ascii) (s : str) :
  match s with [] => True | b :: _ => b <> "l"%char end ->
  rmatch false generate_pattern p s [] accept = None.
Proof.
  intros H. unfold generate_pattern.
  change (cat (WordB :: ?R)) with (Seq WordB (cat R)).
  cbn [rmatch]. destruct (xorb _ _); [|reflexivity].
  cbn [cat fold_right rmatch].
  destruct s as [|b s]; [reflexivity|].
  cbn [lit_match]. unfold char_eq.
  destruct (Ascii.eqb_spec "l" b) as [<-|]; [congruence|reflexivity].
Qed.

Lemma search_from_no_l (p : option ascii) (s : str) :
  Forall (fun b => b <> "l"%char) s ->
  search_from false generate_pattern p s = None.
Proof.
  intros H. revert p. induction H as [|b s Hb Hs IH]; intros p.
  - cbn [search_from]. rewrite generate_needs_l by exact I. reflexivity.
  - cbn [search_from]. rewrite generate_needs_l by exact Hb. apply IH.
Qed.

Lemma blank_no (x : ascii) (s : str) :
  isspace x = false -> blank s -> Forall (fun b => b <> x) s.
Proof.
  intros Hx H. induction H as [|b s Hb Hs IH]; constructor; auto.
  intros ->. congruence.
Qed.

Lemma strip_cons_nonspace (a : ascii) (s : str) :
  isspace a = false -> strip (a :: s) = a :: rstrip s.
Proof.
  intros Ha. unfold strip. rewrite rstrip_cons, Ha. cbn [andb lstrip drop_while].
  rewrite Ha. reflexivity.
Qed.

Lemma take_while_id (p : ascii -> bool) (s : str) :
  Forall (fun b => p b = true) s -> take_while p s = s.
Proof. induction 1 as [|b s Hb Hs IH]; simpl; [|rewrite Hb, IH]; reflexivity. Qed.

Lemma contains_blank (r p : str) (a : ascii) :
  isspace a = false -> blank r -> contains r (a :: p) = false.
Proof.
  intros Ha Hr. induction Hr as [|b r Hb Hr IH]; [reflexivity|].
  cbn [contains startswith]. destruct (Ascii.eqb_spec a b) as [->|]; [congruence|exact IH].
Qed.

Lemma gate_open (m : Message) (d : DB) :
  channel_open m d ->
  in_guild m && negb (bool_decide (channel_id m ∈ get_allowed_channels d)) = false.
Proof.
  intros [H|H]; [rewrite H; reflexivity|].
  rewrite bool_decide_eq_true_2 by exact H. apply andb_false_r.
Qed.

(** *** [lum], whitespace, [generate] *)

(** Two runs of whitespace that end before a character that is not
    whitespace are the same run. *)
Lemma blank_run_unique (r1 r2 x y : str) (a b : ascii) :
  blank r1 -> blank r2 -> isspace a = false -> isspace b = false ->
  r1 ++ a :: x = r2 ++ b :: y -> r1 = r2 /\ a :: x = b :: y.
Proof.
  intros H1. revert r2. induction H1 as [|c r1 Hc H1 IH]; intros r2 H2 Ha Hb E.
  - destruct H2 as [|d r2 Hd H2]; [auto|].
    injection E as -> _. congruence.
  - destruct H2 as [|d r2 Hd H2].
    + injection E as -> _. congruence.
    + injection E as -> E. destruct (IH r2 H2 Ha Hb E) as [-> E']. auto.
Qed.

Lemma rmatch_lit_inv (R : list regex) (l s : str) (p : option ascii) (c m : captures) :
  rmatch false (cat (Lit l :: R)) p s c accept = Some m ->
  exists s', s = l ++ s' /\ rmatch false (cat R) (after p l) s' c accept = Some m.
Proof.
  change (cat (Lit l :: R)) with (Seq (Lit l) (cat R)). cbn [rmatch].
  destruct (lit_match false l p s) as [[p' s']|] eqn:E; [|discriminate].
  apply lit_match_sound in E as [-> ->]. intros H. exists s'. auto.
Qed.

Lemma generate_match_words (ws ws1 rest : str) (a : ascii) :
  ws <> [] -> blank ws -> ws1 <> [] -> blank ws1 -> isspace a = false ->
  re_search false generate_pattern ("lum" ++ ws ++ "generate" ++ ws1 ++ a :: rest)
  = Some [(1%nat, take_while notnewline (a :: rest))].
Proof.
  intros Hne Hws Hne1 Hws1 Ha.
  apply search_from_hit. unfold generate_pattern.
  change (cat (WordB :: ?R)) with (Seq WordB (cat R)).
  cbn [rmatch]. change (xorb _ _) with true. cbv iota.
  rewrite rmatch_lit_then.
  change ("generate" ++ ws1 ++ a :: rest) with ("g"%char :: "enerate" ++ ws1 ++ a :: rest).
  apply rmatch_spaces_then; [exact Hne|exact Hws|reflexivity|].
  change ("g"%char :: "enerate" ++ ws1 ++ a :: rest) with ("generate" ++ ws1 ++ a :: rest).
  rewrite rmatch_lit_then.
  apply rmatch_spaces_then; [exact Hne1|exact Hws1|exact Ha|].
  apply rmatch_group_line, nonspace_notnewline, Ha.
Qed.

(** After [generate] and whitespace only, the pattern finds nothing or a
    blank group. *)
Lemma generate_match_words_blank (ws r : str) :
  blank ws -> blank r ->
  match re_search false generate_pattern ("lum" ++ ws ++ "generate" ++ r) with
  | Some m => blank (group m 1)
  | None => True
  end.
Proof.
  intros Hws Hr. unfold re_search.
  change ("lum" ++ ws ++ "generate" ++ r) with ("l"%char :: "um" ++ ws ++ "generate" ++ r).
  cbn [search_from].
  destruct (rmatch false generate_pattern None
              ("l"%char :: "um" ++ ws ++ "generate" ++ r) [] accept) as [m|] eqn:E.
  - unfold generate_pattern in E.
    change (cat (WordB :: ?R)) with (Seq WordB (cat R)) in E.
    cbn [rmatch] in E. change (xorb _ _) with true in E. cbv iota in E.
    change ("l"%char :: "um" ++ ws ++ "generate" ++ r)
      with ("lum" ++ ws ++ "generate" ++ r) in E.
    rewrite rmatch_lit_then in E.
    apply rmatch_spaces_sound in E as [run [rest [Hs [Hrun [_ E]]]]].
    apply rmatch_lit_inv in E as [s' [-> E]].
    change ("generate" ++ r) with ("g"%char :: "enerate" ++ r) in Hs.
    change ("generate" ++ s') with ("g"%char :: "enerate" ++ s') in Hs.
    destruct (blank_run_unique ws run _ _ "g" "g" Hws Hrun eq_refl eq_refl Hs) as [_ Hs'].
    injection Hs' as Hs'. subst s'.
    apply rmatch_spaces_sound in E as [run1 [rest1 [Hs1 [_ [_ E]]]]].
    apply rmatch_group_sound in E as [j ->].
    cbn [group Nat.eqb]. apply blank_firstn.
    apply (blank_app_r run1). rewrite <- Hs1. exact Hr.
  - rewrite search_from_no_l; [exact I|].
    cbn [app]. repeat (constructor; [discriminate|]).
    apply Forall_app. split; [apply blank_no; [reflexivity|exact Hws]|].
    cbn [app]. repeat (constructor; [discriminate|]).
    apply blank_no; [reflexivity|exact Hr].
Qed.

Lemma contains_other (s p : str) (a c : ascii) :
  c <> a -> contains (a :: s) (c :: p) = contains s (c :: p).
Proof.
  intros H. cbn [contains startswith].
  destruct (Ascii.eqb_spec c a); [congruence|reflexivity].
Qed.

Lemma contains_after_blank (ws s p : str) (c : ascii) :
  blank ws -> isspace c = false -> contains (ws ++ s) (c :: p) = contains s (c :: p).
Proof.
  intros Hws Hc. induction Hws as [|b ws Hb Hws IH]; [reflexivity|].
  cbn [app]. rewrite contains_other by congruence. exact IH.
Qed.

Lemma lum_generate_words_no_gif (ws r p : str) :
  blank ws -> blank r ->
  In p ["with a gif"; "as a gif"; "give me"; "random gif"] ->
  contains ("lum" ++ ws ++ "generate" ++ r) p = false.
Proof.
  intros Hws Hr Hp.
  assert (exists c p', p = c :: p' /\ isspace c = false
                       /\ c <> "l"%char /\ c <> "u"%char /\ c <> "m"%char
                       /\ contains ("generate" ++ r) (c :: p') = false)
    as (c & p' & -> & Hc & Hl & Hu & Hm & Hgen).
  { change ("generate" ++ r) with
      ("g"%char :: "e"%char :: "n"%char :: "e"%char :: "r"%char :: "a"%char :: "t"%char
       :: "e"%char :: r).
    destruct Hp as [<-|[<-|[<-|[<-|[]]]]]; eexists; eexists;
      (split; [reflexivity|]); repeat (split; [discriminate || reflexivity|]);
      simpl; apply contains_blank; auto. }
  change ("lum" ++ ws ++ "generate" ++ r)
    with ("l"%char :: "u"%char :: "m"%char :: ws ++ "generate" ++ r).
  rewrite !contains_other by assumption.
  rewrite contains_after_blank by assumption. exact Hgen.
Qed.

(** None of the other commands begins with [lum], whitespace, [g]. *)
Lemma lum_words_no_command (ws Y p : str) (c : ascii) :
  ws <> [] -> blank ws -> isspace c = false -> c <> "g"%char ->
  startswith (ws ++ "g"%char :: Y) (" "%char :: c :: p) = false.
Proof.
  intros Hne Hws Hc Hg. destruct Hws as [|x ws Hx Hws]; [congruence|].
  cbn [app startswith]. destruct (Ascii.eqb " " x); [|reflexivity].
  destruct Hws as [|y ws Hy Hws]; cbn [app].
  - destruct (Ascii.eqb_spec c "g"); [congruence|reflexivity].
  - destruct (Ascii.eqb_spec c y); [congruence|reflexivity].
Qed.

(** Where [on_message] takes a message that begins with [lum], whitespace,
    [generate]. *)
Lemma on_message_lum_words (ex : Executors) (m : Message) (w : World) (ws Y : str) :
  author_bot m = false ->
  channel_open m (db w) ->
  ws <> [] -> blank ws ->
  lower (content m) = "lum" ++ ws ++ "generate" ++ Y ->
  on_message ex m w =
  match generate_prompt (lower (content m)) with
  | Some prompt => handle_image_generation ex m (Some prompt) w
  | None =>
      if contains (lower (content m)) "with a gif" || contains (lower (content m)) "as a gif"
      then (let q := gif_query (lower (content m)) in
            if truthy q then handle_gif_search ex m (Some q)
            else reply "please provide a search term for the gif.") w
      else if contains (lower (content m)) "give me"
              && contains (lower (content m)) "random gif"
      then handle_random_gif ex m w
      else handle_bot_message ex m w
  end.
Proof.
  intros Hbot Hopen Hne Hws Hlc.
  assert (forall c p, isspace c = false -> c <> "g"%char ->
            startswith (lower (content m)) ("l"%char :: "u"%char :: "m"%char :: " "%char
                                            :: c :: p) = false) as Hcmd.
  { intros c p Hc Hg. rewrite Hlc.
    change ("lum" ++ ws ++ "generate" ++ Y)
      with ("l"%char :: "u"%char :: "m"%char :: ws ++ "g"%char :: "enerate" ++ Y).
    cbn [startswith]. rewrite !Ascii.eqb_refl.
    apply lum_words_no_command; assumption. }
  assert (forall c p, c <> "l"%char -> startswith (lower (content m)) (c :: p) = false)
    as Hbang.
  { intros c p Hc. rewrite Hlc. cbn [app startswith].
    destruct (Ascii.eqb_spec c "l"); [congruence|reflexivity]. }
  unfold on_message. rewrite Hbot.
  rewrite (Hbang "!"%char "setchannel") by discriminate.
  rewrite (Hbang "!"%char "gif") by discriminate.
  rewrite (Hbang "!"%char "img") by discriminate.
  rewrite (Hcmd "s"%char "et language to") by (reflexivity || discriminate).
  rewrite (Hcmd "s"%char "et your opinion on") by (reflexivity || discriminate).
  rewrite (Hcmd "w"%char "hat") by (reflexivity || discriminate).
  cbv iota. unfold bind at 1, query at 1. cbv beta iota.
  rewrite (gate_open m (db w) Hopen).
  rewrite (directed_at_lum m (ws ++ "generate" ++ Y) Hlc).
  cbn [andb].
  destruct (generate_prompt _); [reflexivity|].
  destruct (contains _ "with a gif" || _); [reflexivity|].
  destruct (contains _ "give me" && _); reflexivity.
Qed.

(** C2, as stated, fails on its second half: [lum generate ] with nothing
    after it is not answered with a usage hint.  The pattern needs a prompt,
    so the message falls through to the plain conversation: its text is
    written to the Conversation Log and sent to the text generation. *)
Lemma generate_request_counterexample :
  strip (skipn (length "lum generate") "lum generate ") = []
  /\ is_message_directed_at_bot (direct_message 7 5 "lum generate ") = true
  /\ run (on_message services_down (direct_message 7 5 "lum generate ")) fresh
     = run (handle_bot_message services_down (direct_message 7 5 "lum generate ")) fresh
  /\ conversation_history
       (db (run (on_message services_down (direct_message 7 5 "lum generate ")) fresh))
     = [mkTurn 1 7 "user" "lum generate"]
  /\ forall text : str,
       ~ In (Reply text)
            (trace (run (on_message services_down (direct_message 7 5 "lum generate ")) fresh)).
Proof.
  repeat (split; [reflexivity|]).
  intros text. vm_compute. intros [H|[H|[H|[]]]]; discriminate.
Qed.

(** C2, amended.  For a message of a user that is not a bot, in a channel
    that passes the gate, whose lowercased text is [lum], whitespace,
    [generate], a whitespace and a remainder [r].  When [r] is not blank,
    the message is handled as an image generation; its prompt is [r] without
    its leading whitespace (line breaks are whitespace), cut at its first
    line break and then trimmed, which is [r] trimmed when [r] has no line
    break; that prompt is not empty.  When [r] is blank there is no usage
    hint: the message is handled as plain conversation. *)
Theorem generate_request
    (ex : Executors) (m : Message) (w : World) (ws r : str) (x : ascii) :
  author_bot m = false ->
  channel_open m (db w) ->
  ws <> [] -> blank ws -> isspace x = true ->
  lower (content m) = "lum" ++ ws ++ "generate" ++ x :: r ->
  (strip r <> [] ->
     on_message ex m w
     = handle_image_generation ex m (Some (strip (take_while notnewline (lstrip r)))) w
     /\ strip (take_while notnewline (lstrip r)) <> []
     /\ (forall ws1 a rest,
           r = ws1 ++ a :: rest -> blank ws1 -> isspace a = false ->
           exists l rest',
             a :: rest = l ++ rest' /\ Forall (fun b => notnewline b = true) l
             /\ stops notnewline rest'
             /\ strip (take_while notnewline (lstrip r)) = strip l)
     /\ (Forall (fun b => notnewline b = true) r ->
         strip (take_while notnewline (lstrip r)) = strip r))
  /\ (strip r = [] -> on_message ex m w = handle_bot_message ex m w).
Proof.
  intros Hbot Hopen Hne Hws Hx Hlc.
  rewrite (on_message_lum_words ex m w ws (x :: r) Hbot Hopen Hne Hws Hlc), Hlc.
  destruct (blank_or_split r) as [Hr|[ws1 [a [rest [-> [Hws1 Ha]]]]]].
  - split; [intros H; exfalso; apply H, strip_spaces, Hr|]. intros _.
    assert (blank (x :: r)) as Hxr by (constructor; assumption).
    assert (generate_prompt ("lum" ++ ws ++ "generate" ++ x :: r) = None) as ->.
    { unfold generate_prompt.
      pose proof (generate_match_words_blank ws (x :: r) Hws Hxr) as H.
      destruct (re_search false generate_pattern _); [|reflexivity].
      rewrite (strip_spaces _ H). reflexivity. }
    rewrite !(lum_generate_words_no_gif ws (x :: r)) by (simpl; auto).
    reflexivity.
  - split.
    2:{ intros He. rewrite strip_split in He by assumption. discriminate. }
    intros _.
    assert (generate_prompt ("lum" ++ ws ++ "generate" ++ x :: ws1 ++ a :: rest)
            = Some (strip (take_while notnewline (a :: rest)))) as ->.
    { unfold generate_prompt.
      change (x :: ws1 ++ a :: rest) with ((x :: ws1) ++ a :: rest).
      rewrite generate_match_words;
        [|exact Hne|exact Hws|discriminate|constructor; assumption|exact Ha].
      cbn [group Nat.eqb]. cbn [take_while]. rewrite (nonspace_notnewline a Ha).
      rewrite strip_cons_nonspace by exact Ha. reflexivity. }
    rewrite lstrip_split by assumption.
    repeat split.
    + cbn [take_while]. rewrite (nonspace_notnewline a Ha).
      rewrite strip_cons_nonspace by exact Ha. discriminate.
    + intros ws1' a' rest' E Hws1' Ha'.
      destruct (blank_run_unique ws1 ws1' rest rest' a a' Hws1 Hws1' Ha Ha' E) as [_ <-].
      exists (take_while notnewline (a :: rest)), (drop_while notnewline (a :: rest)).
      repeat split.
      * symmetry. apply take_drop_while.
      * apply take_while_all.
      * apply drop_while_stops.
    + intros Hall. apply Forall_app in Hall as [_ Hall].
      rewrite (take_while_id _ _ Hall).
      rewrite strip_cons_nonspace, strip_split by assumption. reflexivity.
Qed.

Lemma generate_request_witness :
  on_message services_down (direct_message 7 5 "lum generate a sunset over the ocean") fresh
  = handle_image_generation services_down
      (direct_message 7 5 "lum generate a sunset over the ocean")
      (Some "a sunset over the ocean") fresh
  /\ on_message services_down
       (direct_message 7 5
          ("Lum  GENERATE " ++ "010"%char :: "  A Sunset " ++ "010"%char :: "over the ocean"))
       fresh
     = handle_image_generation services_down
         (direct_message 7 5
            ("Lum  GENERATE " ++ "010"%char :: "  A Sunset " ++ "010"%char :: "over the ocean"))
         (Some "a sunset") fresh.
Proof.
  assert (blank " ") as H1 by repeat constructor.
  assert (blank "  ") as H2 by repeat constructor.
  assert (" " <> []) as N1 by discriminate.
  assert ("  " <> []) as N2 by discriminate.
  split.
  - exact (proj1 (proj1 (generate_request services_down
                           (direct_message 7 5 "lum generate a sunset over the ocean") fresh
                           " " "a sunset over the ocean" " "
                           eq_refl (or_introl eq_refl) N1 H1 eq_refl eq_refl)
                   ltac:(vm_compute; discriminate))).
  - exact (proj1 (proj1 (generate_request services_down
                           (direct_message 7 5
                              ("Lum  GENERATE " ++ "010"%char :: "  A Sunset "
                               ++ "010"%char :: "over the ocean")) fresh
                           "  " ("010"%char :: "  a sunset " ++ "010"%char :: "over the ocean")
                           " " eq_refl (or_introl eq_refl) N2 H2 eq_refl eq_refl)
                   ltac:(vm_compute; discriminate))).
Defined.

(** ** Subjects of opinions *)

Lemma lit_match_ignorecase (l P s : str) (p : option ascii) :
  lower P = lower l -> lit_match true l p (P ++ s) = Some (after p P, s).
Proof.
  revert P p. induction l as [|a l IH]; intros [|b P] p H; try discriminate.
  - reflexivity.
  - injection H as Hb HP. cbn [app lit_match]. unfold char_eq.
    rewrite Hb, Ascii.eqb_refl. change (after p (b :: P)) with (after (Some b) P).
    apply IH, HP.
Qed.

Lemma rmatch_lit_ignorecase_then (R : list regex) (l P s : str) (p : option ascii)
    (c : captures) :
  lower P = lower l ->
  rmatch true (cat (Lit l :: R)) p (P ++ s) c accept
  = rmatch true (cat R) (after p P) s c accept.
Proof.
  intros H. cbn [cat fold_right rmatch]. rewrite lit_match_ignorecase by exact H.
  reflexivity.
Qed.

Lemma rmatch_alt_first (ic : bool) (r1 r2 : regex) (R : list regex) (s : str)
    (p : option ascii) (c m : captures) :
  rmatch ic (cat (r1 :: R)) p s c accept = Some m ->
  rmatch ic (cat (Alt r1 r2 :: R)) p s c accept = Some m.
Proof.
  cbn [cat fold_right rmatch]. intros H. rewrite H. reflexivity.
Qed.

Lemma rmatch_spaces_fail (ic : bool) (R : list regex) (s : str) (p : option ascii)
    (c : captures) :
  stops isspace s -> rmatch ic (cat (spaces1 :: R)) p s c accept = None.
Proof.
  intros H. cbn [cat fold_right rmatch spaces1].
  destruct s as [|b s]; cbn [rep_match]; [reflexivity|].
  simpl in H. rewrite H. reflexivity.
Qed.

Section LazyRepetition.

Variables (cls : ascii -> bool) (c : captures) (k : cont).

(** A lazy repetition stops at the first run after which its continuation
    succeeds. *)
Lemma rep_lazy_first (run rest : str) (least : nat) (p : option ascii) (m : captures) :
  Forall (fun b => cls b = true) run ->
  (least <= length run)%nat ->
  (forall pre suf, run = pre ++ suf -> suf <> [] -> k (after p pre) (suf ++ rest) c = None) ->
  k (after p run) rest c = Some m ->
  rep_match false cls least p (run ++ rest) c k = Some m.
Proof.
  intros Hrun. revert least p.
  induction Hrun as [|b run Hb Hrun IH]; intros least p Hle Hfail Hk.
  - simpl in Hle. assert (least = 0)%nat as -> by lia.
    simpl in Hk. destruct rest; cbn [app rep_match]; rewrite Hk; reflexivity.
  - cbn [app rep_match].
    assert (rep_match false cls (pred least) (Some b) (run ++ rest) c k = Some m) as Hmore.
    { apply IH; [simpl in Hle; lia| |exact Hk].
      intros pre suf -> Hsuf. apply (Hfail (b :: pre) suf); auto. }
    rewrite Hb, Hmore.
    destruct least; [|reflexivity].
    pose proof (Hfail [] (b :: run) eq_refl ltac:(discriminate)) as H0.
    cbn [after fold_left app] in H0. rewrite H0. reflexivity.
Qed.

End LazyRepetition.

Lemma rmatch_lazy_group_then (ic : bool) (n : nat) (R : list regex) (run rest : str)
    (p : option ascii) (c m : captures) :
  Forall (fun b => notnewline b = true) run ->
  (1 <= length run)%nat ->
  (forall suf p' c', suf <> [] -> (exists pre, run = pre ++ suf) ->
     rmatch ic (cat R) p' (suf ++ rest) c' accept = None) ->
  rmatch ic (cat R) (after p run) rest ((n, run) :: c) accept = Some m ->
  rmatch ic (cat (Group n lazy1 :: R)) p (run ++ rest) c accept = Some m.
Proof.
  intros Hrun Hlen Hfail Hk.
  cbn [cat fold_right rmatch lazy1].
  apply rep_lazy_first; auto.
  - intros pre suf -> Hsuf. apply Hfail; [exact Hsuf|eexists; reflexivity].
  - rewrite firstn_length_app. exact Hk.
Qed.

Lemma nonspace_all_notnewline (s : str) :
  Forall (fun b => isspace b = false) s -> Forall (fun b => notnewline b = true) s.
Proof.
  intros H. eapply List.Forall_impl; [|exact H]. intros b. apply nonspace_notnewline.
Qed.

Lemma strip_token (s : str) : token s -> strip s = s.
Proof.
  intros [Hne Hs].
  assert (rstrip s = s) as Hr.
  { clear Hne. induction Hs as [|b s Hb Hs IH]; [reflexivity|].
    rewrite rstrip_cons, IH, Hb. reflexivity. }
  unfold strip. rewrite Hr. destruct Hs as [|b s Hb Hs]; [reflexivity|].
  unfold lstrip. simpl. rewrite Hb. reflexivity.
Qed.

Lemma lower_app_inv (P l1 l2 : str) :
  lower P = l1 ++ l2 -> exists P1 P2, P = P1 ++ P2 /\ lower P1 = l1 /\ lower P2 = l2.
Proof. apply List.map_eq_app. Qed.

Lemma lower_space_inv (X : str) :
  lower X = " " -> exists x, X = [x] /\ isspace x = true.
Proof.
  destruct X as [|x [|y X]]; try discriminate. intros H. injection H as H.
  exists x. split; [reflexivity|]. rewrite <- isspace_lower_char, H. reflexivity.
Qed.

Lemma rmatch_alt_second (ic : bool) (r1 r2 : regex) (R : list regex) (s : str)
    (p : option ascii) (c : captures) :
  rmatch ic (cat (r1 :: R)) p s c accept = None ->
  rmatch ic (cat (Alt r1 r2 :: R)) p s c accept = rmatch ic (cat (r2 :: R)) p s c accept.
Proof.
  cbn [cat fold_right rmatch]. intros H. rewrite H. reflexivity.
Qed.

Lemma rmatch_lit_mismatch (R : list regex) (a b : ascii) (l s : str) (p : option ascii)
    (c : captures) :
  lower_char a <> lower_char b ->
  rmatch true (cat (Lit (a :: l) :: R)) p (b :: s) c accept = None.
Proof.
  intros H. cbn [cat fold_right rmatch lit_match]. unfold char_eq.
  destruct (Ascii.eqb_spec (lower_char a) (lower_char b)); [contradiction|reflexivity].
Qed.

(** The tail of both opinion patterns: whitespace, then the rest of the line
    as the last group. *)
Lemma rmatch_spaces_line (n : nat) (x o : ascii) (s : str) (p : option ascii) (c : captures) :
  isspace x = true -> isspace o = false ->
  rmatch true (cat [spaces1; Group n rest1]) p (x :: o :: s) c accept
  = Some ((n, take_while notnewline (o :: s)) :: c).
Proof.
  intros Hx Ho.
  apply (rmatch_spaces_then true [Group n rest1] [x] s o);
    [discriminate|repeat constructor; exact Hx|exact Ho|].
  apply rmatch_group_line, nonspace_notnewline, Ho.
Qed.

(** [lum set your opinion on], a subject without whitespace, [to] or [as],
    an opinion: the groups are the subject as written and the first line of
    the opinion. *)
Lemma set_opinion_match (P S M O : str) (o : ascii) :
  lower P = "lum set your opinion on " ->
  token S ->
  lower M = " to " \/ lower M = " as " ->
  isspace o = false ->
  re_search true set_opinion_pattern (P ++ S ++ M ++ o :: O)
  = Some [(2%nat, take_while notnewline (o :: O)); (1%nat, S)].
Proof.
  intros HP [HS0 HS] HM Ho.
  change "lum set your opinion on " with ("lum set your opinion on" ++ " ") in HP.
  apply lower_app_inv in HP as [A [X [-> [HA HX]]]].
  apply lower_space_inv in HX as [x [-> Hx]].
  assert (exists y1 C y2, M = [y1] ++ C ++ [y2] /\ isspace y1 = true /\ isspace y2 = true
                          /\ (lower C = "to" \/ lower C = "as")) as (y1 & C & y2 & -> & Hy1 & Hy2 & HC).
  { destruct HM as [HM|HM].
    - change " to " with (" " ++ "to" ++ " ") in HM.
      apply lower_app_inv in HM as [Y1 [M' [-> [HY1 HM]]]].
      apply lower_app_inv in HM as [C [Y2 [-> [HC HY2]]]].
      apply lower_space_inv in HY1 as [y1 [-> Hy1]].
      apply lower_space_inv in HY2 as [y2 [-> Hy2]].
      exists y1, C, y2. auto.
    - change " as " with (" " ++ "as" ++ " ") in HM.
      apply lower_app_inv in HM as [Y1 [M' [-> [HY1 HM]]]].
      apply lower_app_inv in HM as [C [Y2 [-> [HC HY2]]]].
      apply lower_space_inv in HY1 as [y1 [-> Hy1]].
      apply lower_space_inv in HY2 as [y2 [-> Hy2]].
      exists y1, C, y2. auto. }
  destruct S as [|s0 S]; [congruence|]. apply Forall_cons_iff in HS as [Hs0 HS].
  apply search_from_hit. unfold set_opinion_pattern.
  rewrite <- !app_assoc.
  rewrite rmatch_lit_ignorecase_then by exact HA.
  apply (rmatch_spaces_then true _ [x]);
    [discriminate|repeat constructor; exact Hx|exact Hs0|].
  change (rmatch true ?r ?p _ ?c accept)
    with (rmatch true r p ((s0 :: S) ++ [y1] ++ C ++ [y2] ++ o :: O) c accept).
  apply rmatch_lazy_group_then.
  - apply nonspace_all_notnewline. constructor; assumption.
  - simpl. lia.
  - intros suf p' c' Hsuf [pre Hpre]. apply rmatch_spaces_fail.
    destruct suf as [|b suf]; [congruence|]. simpl.
    assert (Forall (fun b => isspace b = false) (pre ++ b :: suf)) as Hall.
    { rewrite <- Hpre. constructor; assumption. }
    apply Forall_app in Hall as [_ Hall]. apply Forall_cons_iff in Hall as [Hb _]. exact Hb.
  - assert (exists c0 C', C = c0 :: C' /\ isspace c0 = false) as (c0 & C' & -> & Hc0).
    { destruct C as [|c0 C']; [destruct HC; discriminate|]. exists c0, C'.
      split; [reflexivity|]. rewrite <- isspace_lower_char.
      destruct HC as [HC|HC]; injection HC as -> _; reflexivity. }
    apply (rmatch_spaces_then true _ [y1] (C' ++ [y2] ++ o :: O) c0);
      [discriminate|repeat constructor; exact Hy1|exact Hc0|].
    change (rmatch true ?r ?p _ ?c accept)
      with (rmatch true r p ((c0 :: C') ++ y2 :: o :: O) c accept).
    unfold any_of. cbn [fold_left].
    destruct HC as [HC|HC].
    + apply rmatch_alt_first. rewrite rmatch_lit_ignorecase_then by exact HC.
      apply rmatch_spaces_line; assumption.
    + rewrite rmatch_alt_second.
      * rewrite rmatch_lit_ignorecase_then by exact HC.
        apply rmatch_spaces_line; assumption.
      * apply rmatch_lit_mismatch. injection HC as -> _. discriminate.
Qed.


Lemma on_message_set_opinion (ex : Executors) (m : Message) (w : World) (Y : str) :
  author_bot m = false ->
  channel_open m (db w) ->
  lower (content m) = "lum set your opinion on" ++ Y ->
  on_message ex m w = handle_set_opinion m w.
Proof.
  intros Hbot Hopen Hlc.
  unfold on_message. rewrite Hbot, Hlc.
  change (startswith ("lum set your opinion on" ++ Y) "!setchannel") with false.
  change (startswith ("lum set your opinion on" ++ Y) "lum set language to") with false.
  change (startswith ("lum set your opinion on" ++ Y) "!gif") with false.
  change (startswith ("lum set your opinion on" ++ Y) "!img") with false.
  change (startswith ("lum set your opinion on" ++ Y) "lum set your opinion on") with true.
  cbv iota. unfold bind at 1, query at 1. cbv beta iota.
  rewrite (gate_open m (db w) Hopen).
  rewrite (directed_at_lum m (" set your opinion on" ++ Y) Hlc).
  reflexivity.
Qed.

Lemma on_message_get_opinion (ex : Executors) (m : Message) (w : World) (Y : str) :
  author_bot m = false ->
  channel_open m (db w) ->
  lower (content m) = "lum what" ++ Y ->
  contains ("lum what" ++ Y) "your opinion on" = true ->
  on_message ex m w = handle_get_opinion ex m w.
Proof.
  intros Hbot Hopen Hlc Hyo.
  unfold on_message. rewrite Hbot, Hlc, Hyo.
  change (startswith ("lum what" ++ Y) "!setchannel") with false.
  change (startswith ("lum what" ++ Y) "lum set language to") with false.
  change (startswith ("lum what" ++ Y) "!gif") with false.
  change (startswith ("lum what" ++ Y) "!img") with false.
  change (startswith ("lum what" ++ Y) "lum set your opinion on") with false.
  change (startswith ("lum what" ++ Y) "lum what") with true.
  cbv iota. unfold bind at 1, query at 1. cbv beta iota.
  rewrite (gate_open m (db w) Hopen).
  rewrite (directed_at_lum m (" what" ++ Y) Hlc).
  reflexivity.
Qed.

(** *** Subjects of several words *)

Lemma rmatch_spaces_inv (ic : bool) (R : list regex) (s : str) (p : option ascii)
    (c m : captures) :
  rmatch ic (cat (spaces1 :: R)) p s c accept = Some m ->
  exists run rest,
    s = run ++ rest /\ blank run /\ (1 <= length run)%nat
    /\ rmatch ic (cat R) (after p run) rest c accept = Some m.
Proof.
  cbn [cat fold_right rmatch spaces1]. intros H.
  apply rep_sound in H. exact H.
Qed.













Lemma run_handle_set_opinion (m : Message) (w : World) (caps : captures) :
  re_search true set_opinion_pattern (content m) = Some caps ->
  run (handle_set_opinion m) w =
  mkWorld (set_lum_preference (strip (group caps 1)) (strip (group caps 2)) (db w))
    (trace w ++ [Reply ("Okay, I've set my opinion on **" ++ strip (group caps 1)
                        ++ "** to: " ++ strip (group caps 2))]).
Proof. intros H. unfold handle_set_opinion. rewrite H. reflexivity. Qed.



(** ** Further properties of the handlers *)

(** ** What an event can do *)

(** Whatever holds of the world after each handler, and of the world left as
    it is, holds after [on_message]. *)
Lemma on_message_cases (ex : Executors) (m : Message) (w : World) (P : World -> Prop) :
  P w ->
  P (run (handle_set_channel m) w) ->
  P (run (handle_set_language m) w) ->
  (forall o, P (run (handle_gif_search ex m o) w)) ->
  (forall o, P (run (handle_image_generation ex m o) w)) ->
  P (run (handle_set_opinion m) w) ->
  P (run (handle_get_opinion ex m) w) ->
  P (run (reply "please provide a search term for the gif.") w) ->
  P (run (handle_random_gif ex m) w) ->
  P (run (handle_bot_message ex m) w) ->
  P (run (on_message ex m) w).
Proof.
  intros Hw Hchan Hlang Hgif Himg Hset Hget Hterm Hrand Hbot.
  unfold on_message.
  destruct (author_bot m); [exact Hw|].
  destruct (startswith _ "!setchannel"); [exact Hchan|].
  destruct (startswith _ "lum set language to"); [exact Hlang|].
  rewrite run_query.
  destruct (in_guild m && _); [exact Hw|].
  destruct (startswith _ "!gif"); [apply Hgif|].
  destruct (startswith _ "!img"); [apply Himg|].
  destruct (is_message_directed_at_bot m); [|exact Hw].
  destruct (startswith _ "lum set your opinion on"); [exact Hset|].
  destruct (startswith _ "lum what" && _); [exact Hget|].
  destruct (generate_prompt _); [apply Himg|].
  destruct (contains _ "with a gif" || _).
  { destruct (truthy _); [apply Hgif|exact Hterm]. }
  destruct (contains _ "give me" && _); [exact Hrand|exact Hbot].
Qed.

Lemma session_invariant (P : World -> Prop) :
  (forall ex m w, P w -> P (run (on_message ex m) w)) ->
  forall events w, P w -> P (session events w).
Proof.
  intros Hstep events. induction events as [|[ex m] events IH]; intros w Hw; simpl; auto.
Qed.

(** *** The user memory *)

Lemma on_message_user_memory (ex : Executors) (m : Message) (w : World) :
  user_memory (db (run (on_message ex m) w)) = user_memory (db w).
Proof.
  apply on_message_cases; intros;
    try (rewrite run_handle_bot_message; cbv zeta;
         destruct (chat_completion ex _ 200); reflexivity);
    unfold handle_set_language, handle_gif_search, handle_random_gif,
      handle_image_generation, handle_set_opinion, handle_get_opinion;
    handler_cases.
Qed.

(** X1.  Nothing the bot handles writes to [user_memory]: through any
    session the table is the one the session started with.  From a fresh
    database it stays empty, so every [get_user_memory] gives [None] and the
    system instruction of a conversation never names the user. *)
Theorem user_memory_is_never_written
    (events : list (Executors * Message)) (w : World) (m : Message) :
  user_memory (db (session events w)) = user_memory (db w)
  /\ (forall u key, get_user_memory u key (db (session events fresh)) = None)
  /\ converse_messages m (with_user_turn m (db (session events fresh)))
     = ("system",
        system_instruction None
          (get_lum_preference "language" (db (session events fresh))))
       :: get_conversation_history (author_id m) 10
            (with_user_turn m (db (session events fresh))).
Proof.
  assert (forall w', user_memory (db (session events w')) = user_memory (db w')) as H.
  { intros w'. apply (session_invariant (fun x => user_memory (db x) = user_memory (db w')));
      [|reflexivity].
    intros ex m' x Hx. rewrite on_message_user_memory. exact Hx. }
  split; [apply H|].
  assert (forall u key, get_user_memory u key (db (session events fresh)) = None) as Hnone.
  { intros u key. unfold get_user_memory. rewrite H. apply lookup_empty. }
  split; [exact Hnone|].
  unfold converse_messages.
  change (get_user_memory ?u ?k (with_user_turn m ?d)) with (get_user_memory u k d).
  change (get_lum_preference ?k (with_user_turn m ?d)) with (get_lum_preference k d).
  rewrite Hnone. reflexivity.
Qed.

(** *** The registry *)

Lemma on_message_allowed_channels (ex : Executors) (m : Message) (w : World) :
  allowed_channels (db (run (on_message ex m) w)) = allowed_channels (db w)
  \/ db (run (on_message ex m) w)
     = add_allowed_channel (channel_id m)
         (match channel_name m with Some n => n | None => "DM" end) (db w).
Proof.
  apply on_message_cases; intros;
    try (right; reflexivity);
    left;
    try (rewrite run_handle_bot_message; cbv zeta;
         destruct (chat_completion ex _ 200); reflexivity);
    unfold handle_set_language, handle_gif_search, handle_random_gif,
      handle_image_generation, handle_set_opinion, handle_get_opinion;
    handler_cases.
Qed.

Lemma add_allowed_channel_keeps (cid : Z) (name : str) (d : DB) (row : Z * str) :
  In row (allowed_channels d) -> In row (allowed_channels (add_allowed_channel cid name d)).
Proof.
  unfold add_allowed_channel; simpl.
  destruct (has_channel cid (allowed_channels d)); [tauto|].
  intros H. apply in_or_app. left. exact H.
Qed.

(** X2.  The registry only grows: no message removes a row of
    [allowed_channels] or renames it, so a channel that is allowed stays
    allowed through every session. *)
Theorem registry_only_grows
    (events : list (Executors * Message)) (w : World) (cid : Z) (name : str) :
  In (cid, name) (allowed_channels (db w)) ->
  In (cid, name) (allowed_channels (db (session events w)))
  /\ cid ∈ get_allowed_channels (db (session events w)).
Proof.
  intros Hin.
  assert (In (cid, name) (allowed_channels (db (session events w)))) as H.
  { apply (session_invariant (fun x => In (cid, name) (allowed_channels (db x))));
      [|exact Hin].
    intros ex m x Hx. destruct (on_message_allowed_channels ex m x) as [E|E].
    - rewrite E. exact Hx.
    - rewrite E. apply add_allowed_channel_keeps, Hx. }
  split; [exact H|].
  unfold get_allowed_channels. apply elem_of_list_to_set, list_elem_of_In.
  apply (in_map fst) in H. exact H.
Qed.

Lemma registry_only_grows_witness :
  42%Z ∈ get_allowed_channels
    (db (session [(services_down, guild_message 1 42 "renamed" "!setchannel");
                  (services_down, guild_message 2 43 "other" "!setchannel")]
           (run (handle_set_channel (guild_message 1 42 "general" "!setchannel")) fresh))).
Proof.
  apply (registry_only_grows
           [(services_down, guild_message 1 42 "renamed" "!setchannel");
            (services_down, guild_message 2 43 "other" "!setchannel")]
           (run (handle_set_channel (guild_message 1 42 "general" "!setchannel")) fresh)
           42 "general").
  left. reflexivity.
Defined.

(** X3.  From a fresh database, whatever the messages, no channel id is
    twice in [allowed_channels]. *)
Theorem registry_keys_stay_unique (events : list (Executors * Message)) :
  unique_channels (db (session events fresh)).
Proof.
  apply (session_invariant (fun x => unique_channels (db x))); [|constructor].
  intros ex m x Hx. destruct (on_message_allowed_channels ex m x) as [E|E].
  - unfold unique_channels. rewrite E. exact Hx.
  - rewrite E. apply add_allowed_channel_unique, Hx.
Qed.

(** *** Replies *)

Ltac grown :=
  rewrite <- ?app_assoc; eexists; split; [reflexivity|unfold replies; simpl; lia].

(** X4.  A message gets at most one reply: [on_message] only adds events
    to the trace, and at most one of them is a reply. *)
Theorem at_most_one_reply_per_message (ex : Executors) (m : Message) (w : World) :
  exists evs,
    trace (run (on_message ex m) w) = trace w ++ evs /\ (replies evs <= 1)%nat.
Proof.
  apply on_message_cases; intros;
    try (exists []; split; [symmetry; apply app_nil_r|unfold replies; simpl; lia]);
    try (rewrite run_handle_bot_message; cbv zeta;
         destruct (chat_completion ex _ 200); simpl; grown);
    unfold handle_set_channel, handle_set_language, handle_gif_search, handle_random_gif,
      handle_image_generation, handle_set_opinion, handle_get_opinion;
    unfold run, bind, emit, update, query, reply, ret; simpl;
    repeat (match goal with
            | |- context [match ?x with _ => _ end] => destruct x
            end; simpl);
    grown.
Qed.

(** X5.  Without a Giphy API key no request goes to Giphy, whatever the
    message. *)
Theorem no_giphy_request_without_key (ex : Executors) (m : Message) (w : World) :
  giphy_api_key ex = false ->
  exists evs,
    trace (run (on_message ex m) w) = trace w ++ evs /\ giphy_calls evs = [].
Proof.
  intros Hkey.
  apply on_message_cases; intros;
    try (exists []; split; [symmetry; apply app_nil_r|reflexivity]);
    try (rewrite run_handle_bot_message; cbv zeta;
         destruct (chat_completion ex _ 200); simpl;
         rewrite <- ?app_assoc; eexists; split; reflexivity);
    unfold handle_set_channel, handle_set_language, handle_gif_search, handle_random_gif,
      handle_image_generation, handle_set_opinion, handle_get_opinion;
    rewrite ?Hkey;
    unfold run, bind, emit, update, query, reply, ret; simpl;
    repeat (match goal with
            | |- context [match ?x with _ => _ end] => destruct x
            end; simpl);
    rewrite <- ?app_assoc; eexists; split; reflexivity.
Qed.

Lemma no_giphy_request_without_key_witness :
  exists evs,
    trace (run (on_message (mkExecutors (fun _ _ => None) (fun _ => None)
                              (fun _ => SearchEmpty) RandomNone false)
                  (direct_message 7 5 "!gif dancing cat")) fresh)
    = trace fresh ++ evs /\ giphy_calls evs = [].
Proof.
  exact (no_giphy_request_without_key
           (mkExecutors (fun _ _ => None) (fun _ => None) (fun _ => SearchEmpty) RandomNone false)
           (direct_message 7 5 "!gif dancing cat") fresh eq_refl).
Defined.

(** *** Commands *)

Lemma bang_command_first (s c : str) (a : ascii) :
  a <> "s"%char -> startswith s ("!"%char :: a :: c) = true ->
  startswith s "!setchannel" = false /\ startswith s "lum set language to" = false.
Proof.
  intros Ha H.
  apply startswith_cons_inv in H as [s1 [-> H]].
  apply startswith_cons_inv in H as [s2 [-> _]].
  split; [|reflexivity].
  cbn [startswith]. rewrite Ascii.eqb_refl.
  destruct (Ascii.eqb_spec "s" a); [congruence|reflexivity].
Qed.

Lemma on_message_img (ex : Executors) (m : Message) (w : World) :
  author_bot m = false -> channel_open m (db w) ->
  startswith (lower (content m)) "!img" = true ->
  on_message ex m w = handle_image_generation ex m None w.
Proof.
  intros Hbot Hopen Himg.
  assert ("i"%char <> "s"%char) as Hi by discriminate.
  destruct (bang_command_first _ "mg" "i" Hi Himg) as [H1 H2].
  assert (startswith (lower (content m)) "!gif" = false) as H3.
  { apply startswith_cons_inv in Himg as [s1 [-> H]].
    apply startswith_cons_inv in H as [s2 [-> _]]. reflexivity. }
  unfold on_message. rewrite Hbot, H1, H2, H3, Himg.
  unfold bind at 1, query at 1. cbv beta iota.
  rewrite (gate_open m (db w) Hopen). reflexivity.
Qed.

Lemma on_message_gif (ex : Executors) (m : Message) (w : World) :
  author_bot m = false -> channel_open m (db w) ->
  startswith (lower (content m)) "!gif" = true ->
  on_message ex m w = handle_gif_search ex m None w.
Proof.
  intros Hbot Hopen Hgif.
  assert ("g"%char <> "s"%char) as Hg by discriminate.
  destruct (bang_command_first _ "if" "g" Hg Hgif) as [H1 H2].
  unfold on_message. rewrite Hbot, H1, H2, Hgif.
  unfold bind at 1, query at 1. cbv beta iota.
  rewrite (gate_open m (db w) Hopen). reflexivity.
Qed.

(** X6.  [!img] in an open channel.  The prompt is what follows the first
    four characters of the text as written, stripped.  Without a prompt the
    reply is the hint and nothing else happens; with one, the bot shows
    typing, asks for one image and replies its URL, or an apology when the
    request fails.  No table changes. *)
Theorem img_command (ex : Executors) (m : Message) (w : World) :
  author_bot m = false -> channel_open m (db w) ->
  startswith (lower (content m)) "!img" = true ->
  let prompt := strip (skipn 4 (content m)) in
  run (on_message ex m) w =
  if is_empty prompt
  then mkWorld (db w) (trace w ++ [Reply "please provide an image prompt."])
  else match image_create ex prompt with
       | Some image_url =>
           mkWorld (db w) (trace w ++ [Typing; ImageCreate prompt; Reply image_url])
       | None =>
           mkWorld (db w)
             (trace w ++ [Typing; ImageCreate prompt;
                          Reply "sorry, there was an error generating the image.";
                          Print "Image generation error"])
       end.
Proof.
  intros Hbot Hopen Himg prompt.
  unfold run at 1. rewrite (on_message_img ex m w Hbot Hopen Himg).
  unfold handle_image_generation, truthy. subst prompt. cbn [length].
  destruct (is_empty (strip (skipn 4 (content m)))); simpl; [reflexivity|].
  unfold bind, emit, reply; simpl.
  destruct (image_create ex _); simpl; rewrite <- !app_assoc; reflexivity.
Qed.

Lemma img_command_witness :
  run (on_message services_down (guild_message 1 42 "general" "!IMG  A Red Cat "))
      (run (handle_set_channel (guild_message 1 42 "general" "!setchannel")) fresh)
  = mkWorld (db (run (handle_set_channel (guild_message 1 42 "general" "!setchannel")) fresh))
      [Reply "Channel **general** has been set for Lum to speak.";
       Typing; ImageCreate "A Red Cat";
       Reply "sorry, there was an error generating the image.";
       Print "Image generation error"].
Proof.
  assert (channel_open (guild_message 1 42 "general" "!IMG  A Red Cat ")
            (db (run (handle_set_channel (guild_message 1 42 "general" "!setchannel")) fresh)))
    as Hopen by (right; unfold get_allowed_channels; simpl; set_solver).
  exact (img_command services_down (guild_message 1 42 "general" "!IMG  A Red Cat ")
           (run (handle_set_channel (guild_message 1 42 "general" "!setchannel")) fresh)
           eq_refl Hopen eq_refl).
Defined.

(** X7.  [!gif] in an open channel.  The query is what follows the first
    four characters of the text as written, stripped.  Without a query the
    reply is the hint, before any typing; without an API key the bot shows
    typing and says so; otherwise it searches once and replies the URL, an
    apology when the search fails, and when the search finds nothing it falls
    back to one request for a random GIF.  No table changes. *)
Theorem gif_command (ex : Executors) (m : Message) (w : World) :
  author_bot m = false -> channel_open m (db w) ->
  startswith (lower (content m)) "!gif" = true ->
  let q := strip (skipn 4 (content m)) in
  run (on_message ex m) w =
  mkWorld (db w)
    (trace w ++
     if is_empty q then [Reply "please provide a search term for the gif."]
     else if negb (giphy_api_key ex) then [Typing; Reply "Giphy API key is not set."]
     else match giphy_search ex q with
          | SearchUrl gif_url => [Typing; GiphySearch q; Reply gif_url]
          | SearchRaised =>
              [Typing; GiphySearch q;
               Reply "sorry, there was an error searching for a gif.";
               Print "Giphy API error"]
          | SearchEmpty =>
              [Typing; GiphySearch q; Typing; GiphyRandom]
              ++ match giphy_random ex with
                 | RandomUrl gif_url => [Reply gif_url]
                 | RandomNone => [Reply "sorry, I couldn't find a random gif."]
                 | RandomRaised =>
                     [Reply "sorry, there was an error fetching a random gif.";
                      Print "Giphy API error"]
                 end
          end).
Proof.
  intros Hbot Hopen Hgif q.
  unfold run at 1. rewrite (on_message_gif ex m w Hbot Hopen Hgif).
  unfold handle_gif_search, handle_random_gif, truthy. subst q. cbn [length].
  destruct (is_empty (strip (skipn 4 (content m)))); simpl; [reflexivity|].
  unfold bind, emit, reply; simpl.
  destruct (giphy_api_key ex) eqn:Hkey; simpl; [|rewrite <- !app_assoc; reflexivity].
  destruct (giphy_search ex _); simpl; rewrite ?Hkey; simpl;
    try destruct (giphy_random ex); simpl; rewrite <- !app_assoc; reflexivity.
Qed.

Lemma gif_command_witness :
  run (on_message (mkExecutors (fun _ _ => None) (fun _ => None)
                     (fun _ => SearchEmpty) (RandomUrl "https://giphy.example/r.gif") true)
         (direct_message 7 5 "!gif  Dancing Cat")) fresh
  = mkWorld (db fresh)
      [Typing; GiphySearch "Dancing Cat"; Typing; GiphyRandom;
       Reply "https://giphy.example/r.gif"].
Proof.
  exact (gif_command (mkExecutors (fun _ _ => None) (fun _ => None)
                        (fun _ => SearchEmpty) (RandomUrl "https://giphy.example/r.gif") true)
           (direct_message 7 5 "!gif  Dancing Cat") fresh
           eq_refl (or_introl eq_refl) eq_refl).
Defined.

(** X8.  A message of a bot, and a message that is neither a command nor
    directed at the bot, changes nothing: no reply, no event, no write. *)
Theorem ignored_messages (ex : Executors) (m : Message) (w : World) :
  author_bot m = true
  \/ (startswith (lower (content m)) "!setchannel" = false
      /\ startswith (lower (content m)) "lum set language to" = false
      /\ startswith (lower (content m)) "!gif" = false
      /\ startswith (lower (content m)) "!img" = false
      /\ is_message_directed_at_bot m = false) ->
  run (on_message ex m) w = w.
Proof.
  intros [Hbot|(H1 & H2 & H3 & H4 & Hd)]; unfold on_message.
  - rewrite Hbot. reflexivity.
  - destruct (author_bot m); [reflexivity|].
    rewrite H1, H2, H3, H4, Hd. rewrite run_query.
    destruct (in_guild m && _); reflexivity.
Qed.

Lemma ignored_messages_witness :
  run (on_message (services_saying "hi")
         (mkMessage 9 true "lum what's your opinion on bots" false 5 None true false)) fresh
  = fresh
  /\ run (on_message (services_saying "hi")
            (guild_message 1 42 "general" "hi john, what's up?"))
         (run (handle_set_channel (guild_message 1 42 "general" "!setchannel")) fresh)
     = run (handle_set_channel (guild_message 1 42 "general" "!setchannel")) fresh.
Proof.
  split.
  - exact (ignored_messages (services_saying "hi")
             (mkMessage 9 true "lum what's your opinion on bots" false 5 None true false)
             fresh (or_introl eq_refl)).
  - exact (ignored_messages (services_saying "hi")
             (guild_message 1 42 "general" "hi john, what's up?")
             (run (handle_set_channel (guild_message 1 42 "general" "!setchannel")) fresh)
             (or_intror (conj eq_refl (conj eq_refl (conj eq_refl (conj eq_refl eq_refl)))))).
Defined.

(** *** Who a message is for *)

(** X9.  A trigger keyword is looked for at the start of the text,
    lowercased and stripped, and not as a word of its own: a message that
    begins with [bot], as [Bottles are on the shelf] does, is directed at the
    bot. *)
Theorem trigger_keyword_is_a_prefix (m : Message) (kw Y : str) :
  In kw trigger_keywords ->
  strip (lower (content m)) = kw ++ Y ->
  is_message_directed_at_bot m = true.
Proof.
  intros Hkw Hc. unfold is_message_directed_at_bot.
  destruct (is_dm m); [reflexivity|]. destruct (mentions_bot m); [reflexivity|].
  rewrite Hc.
  simpl in Hkw.
  repeat (destruct Hkw as [<-|Hkw]; [vm_compute; reflexivity|]).
  destruct Hkw.
Qed.

Lemma trigger_keyword_is_a_prefix_witness :
  is_message_directed_at_bot (guild_message 1 42 "general" " Bottles are on the shelf") = true.
Proof.
  apply (trigger_keyword_is_a_prefix
           (guild_message 1 42 "general" " Bottles are on the shelf")
           "bot" "tles are on the shelf").
  - right. left. reflexivity.
  - reflexivity.
Defined.

Lemma rmatch_lum_boundary (tail : str) (p : option ascii) (c : captures) :
  stops isword tail ->
  rmatch false (cat [Lit " lum"; WordB]) p (" lum" ++ tail) c accept = Some c.
Proof.
  intros Ht. rewrite rmatch_lit_then. cbn [cat fold_right rmatch after fold_left].
  destruct tail as [|b tail]; cbn [head word_at].
  - reflexivity.
  - simpl in Ht. rewrite Ht. reflexivity.
Qed.

(** X10.  A greeting word alone, and a greeting word followed by [ lum]
    at a word boundary, are directed at the bot. *)
Theorem greeting_to_lum (m : Message) (G tail : str) :
  In G greeting_words ->
  strip (lower (content m)) = G
  \/ (strip (lower (content m)) = G ++ " lum" ++ tail /\ stops isword tail) ->
  is_message_directed_at_bot m = true.
Proof.
  intros HG Hc. unfold is_message_directed_at_bot.
  destruct (is_dm m); [reflexivity|]. destruct (mentions_bot m); [reflexivity|].
  destruct Hc as [Hc|[Hc Ht]]; rewrite Hc.
  - simpl in HG. repeat (destruct HG as [<-|HG]; [reflexivity|]). destruct HG.
  - cbn [existsb greeting_patterns]. unfold matches at 1. unfold greeting_lum.
    destruct (greeting_head_some [Lit " lum"; WordB] G (" lum" ++ tail) HG) as [x ->];
      [|reflexivity].
    intros. eexists. apply rmatch_lum_boundary, Ht.
Qed.

Lemma greeting_to_lum_witness :
  is_message_directed_at_bot (guild_message 1 42 "general" "Hey Lum, you there") = true.
Proof.
  apply (greeting_to_lum (guild_message 1 42 "general" "Hey Lum, you there")
           "hey" ", you there").
  - right. right. left. reflexivity.
  - right. split; reflexivity.
Defined.

Lemma greeting_needs_its_letter (R : list regex) (s : str) :
  match s with
  | [] => True
  | c0 :: _ => c0 <> "h"%char /\ c0 <> "y"%char /\ c0 <> "s"%char
  end ->
  re_match false (cat (Bol :: Group 1 (any_of greeting_words) :: R)) s = None.
Proof.
  intros H. unfold re_match.
  cbn [cat fold_right rmatch any_of fold_left greeting_words].
  destruct s as [|c0 s]; cbn [lit_match]; [reflexivity|].
  destruct H as (Hh & Hy & Hs). unfold char_eq.
  destruct (Ascii.eqb_spec "h" c0); [congruence|].
  destruct (Ascii.eqb_spec "y" c0); [congruence|].
  destruct (Ascii.eqb_spec "s" c0); [congruence|].
  reflexivity.
Qed.

(** X11.  For a message that is neither direct nor a mention and whose
    text, lowercased and stripped, begins with none of [h], [y], [s] (so with
    no greeting word): it is directed at the bot exactly when the text begins
    with a trigger keyword or ends with a question mark. *)
Theorem no_greeting_means_keyword_or_question (m : Message) :
  is_dm m = false -> mentions_bot m = false ->
  match strip (lower (content m)) with
  | [] => True
  | c0 :: _ => c0 <> "h"%char /\ c0 <> "y"%char /\ c0 <> "s"%char
  end ->
  is_message_directed_at_bot m
  = existsb (fun word => startswith (strip (lower (content m))) word) trigger_keywords
    || endswith (strip (lower (content m))) "?".
Proof.
  intros Hdm Hmen Hc. unfold is_message_directed_at_bot. rewrite Hdm, Hmen.
  cbn [existsb greeting_patterns]. unfold matches, greeting_lum, greeting_alone, greeting_other.
  rewrite !greeting_needs_its_letter by exact Hc.
  cbn [orb]. destruct (existsb _ trigger_keywords); [reflexivity|].
  destruct (endswith _ "?"); reflexivity.
Qed.

Lemma no_greeting_means_keyword_or_question_witness :
  is_message_directed_at_bot (guild_message 1 42 "general" "anyone seen my keys?") = true
  /\ is_message_directed_at_bot (guild_message 1 42 "general" "i like pizza.") = false.
Proof.
  split.
  - rewrite (no_greeting_means_keyword_or_question
               (guild_message 1 42 "general" "anyone seen my keys?") eq_refl eq_refl).
    + reflexivity.
    + vm_compute. repeat split; discriminate.
  - rewrite (no_greeting_means_keyword_or_question
               (guild_message 1 42 "general" "i like pizza.") eq_refl eq_refl).
    + reflexivity.
    + vm_compute. repeat split; discriminate.
Defined.

(** *** The shape of the log *)

Lemma well_paired_app (prev : option Turn) (l1 l2 : list Turn) :
  well_paired prev l1 -> well_paired (last_turn prev l1) l2 -> well_paired prev (l1 ++ l2).
Proof.
  revert prev. induction l1 as [|t l1 IH]; intros prev H1 H2; simpl in *; [exact H2|].
  destruct H1 as [Ht H1]. split; [exact Ht|]. apply IH; assumption.
Qed.

Lemma next_id_counts (l : list Turn) :
  map turn_id l = map Z.of_nat (seq 1 (length l)) ->
  next_id l = Z.of_nat (S (length l)).
Proof.
  unfold next_id.
  assert (forall (k : nat) (l : list Turn),
            map turn_id l = map Z.of_nat (seq (S k) (length l)) ->
            fold_right (fun t m => Z.max (turn_id t) m) 0%Z l
            = if Nat.eqb (length l) 0 then 0%Z else Z.of_nat (k + length l)) as H.
  { intros k l0. revert k. induction l0 as [|t l0 IH]; intros k Hl; [reflexivity|].
    simpl in Hl. injection Hl as Ht Hl. simpl fold_right. rewrite (IH (S k) Hl), Ht.
    simpl length. cbn [Nat.eqb]. destruct (Nat.eqb (length l0) 0) eqn:E.
    - apply Nat.eqb_eq in E. rewrite E. lia.
    - lia. }
  intros Hl. rewrite (H 0%nat l Hl). destruct l; simpl; lia.
Qed.

Lemma ids_snoc (l : list Turn) (u : Z) (role content : str) :
  map turn_id l = map Z.of_nat (seq 1 (length l)) ->
  map turn_id (l ++ [mkTurn (next_id l) u role content])
  = map Z.of_nat (seq 1 (length (l ++ [mkTurn (next_id l) u role content]))).
Proof.
  intros Hl. rewrite length_app, map_app, seq_app, map_app, <- Hl. simpl.
  rewrite (next_id_counts l Hl). reflexivity.
Qed.

(** X12.  From a fresh database, whatever the messages: the ids of the
    Conversation Log are 1, 2, ..., n in the order of the rows, and every
    turn of the assistant comes right after a turn of a user, the same
    user. *)
Theorem log_shape (events : list (Executors * Message)) :
  map turn_id (conversation_history (db (session events fresh)))
  = map Z.of_nat (seq 1 (length (conversation_history (db (session events fresh)))))
  /\ well_paired None (conversation_history (db (session events fresh))).
Proof.
  apply (session_invariant
           (fun x => map turn_id (conversation_history (db x))
                     = map Z.of_nat (seq 1 (length (conversation_history (db x))))
                     /\ well_paired None (conversation_history (db x))));
    [|split; [reflexivity|exact I]].
  intros ex m x [Hids Hpair].
  destruct (on_message_log ex m x) as [E|E]; [rewrite E; auto|].
  rewrite E, run_handle_bot_message. cbv zeta.
  assert (map turn_id (conversation_history (with_user_turn m (db x)))
          = map Z.of_nat (seq 1 (length (conversation_history (with_user_turn m (db x))))))
    as Hids1 by (apply ids_snoc, Hids).
  assert (well_paired None (conversation_history (with_user_turn m (db x)))) as Hpair1.
  { apply well_paired_app; [exact Hpair|]. simpl. auto. }
  destruct (chat_completion ex _ 200); [|auto].
  split.
  - apply ids_snoc, Hids1.
  - apply well_paired_app; [exact Hpair1|].
    unfold with_user_turn, add_conversation_message, last_turn; simpl.
    rewrite fold_left_app; simpl. split; [|exact I]. right. split; [reflexivity|].
    eexists. split; [reflexivity|]. split; reflexivity.
Qed.

(** *** The context window *)

Lemma sql_limit_length {A} (limit : Z) (l : list A) :
  (0 <= limit)%Z -> (length (sql_limit limit l) <= Z.to_nat limit)%nat.
Proof.
  intros H. unfold sql_limit. destruct (limit <? 0)%Z eqn:E; [apply Z.ltb_lt in E; lia|].
  rewrite length_firstn. lia.
Qed.

Lemma history_length (u limit : Z) (d : DB) :
  (0 <= limit)%Z ->
  (length (get_conversation_history u limit d) <= Z.to_nat limit)%nat.
Proof.
  intros Hlimit. rewrite history_as_newest_first, length_rev.
  apply sql_limit_length, Hlimit.
Qed.

(** X13.  [get_conversation_history] with a limit that is not negative
    returns at most [limit] entries, each the role and the content of a row
    of the log that belongs to the user asked for. *)
Theorem history_window (u limit : Z) (d : DB) :
  (0 <= limit)%Z ->
  (length (get_conversation_history u limit d) <= Z.to_nat limit)%nat
  /\ forall role content,
       In (role, content) (get_conversation_history u limit d) ->
       exists t, In t (conversation_history d) /\ turn_user t = u
                 /\ turn_role t = role /\ turn_content t = content.
Proof.
  intros Hlimit. split.
  - apply history_length, Hlimit.
  - intros role content Hin. rewrite history_as_newest_first in Hin.
    apply in_rev in Hin.
    assert (In (role, content) (map shown (newest_first u d))) as Hin'.
    { unfold sql_limit in Hin. destruct (limit <? 0)%Z; [exact Hin|].
      rewrite <- (firstn_skipn (Z.to_nat limit)). apply in_or_app. left. exact Hin. }
    apply in_map_iff in Hin' as [t [Ht Hin']].
    unfold newest_first in Hin'.
    apply (Permutation_in _ (Permutation_sym (order_by_id_desc_perm _))) in Hin'.
    apply List.filter_In in Hin' as [Hin' Hu].
    exists t. unfold of_user in Hu. apply Z.eqb_eq in Hu.
    inversion Ht. auto.
Qed.

Lemma history_window_witness :
  (length (get_conversation_history 7 2
             (append_all [(7%Z, ("user", "a")); (8%Z, ("user", "x"));
                          (7%Z, ("assistant", "b")); (7%Z, ("user", "c"))] setup_database))
   <= 2)%nat.
Proof.
  exact (proj1 (history_window 7 2
                  (append_all [(7%Z, ("user", "a")); (8%Z, ("user", "x"));
                               (7%Z, ("assistant", "b")); (7%Z, ("user", "c"))] setup_database)
                  ltac:(lia))).
Defined.

(** X14.  What [handle_bot_message] sends to the text generation has
    between 2 and 11 messages: the system instruction first, then at most ten
    turns of the history, the last of them the turn just written. *)
Theorem converse_request_is_bounded (m : Message) (d : DB) :
  (2 <= length (converse_messages m (with_user_turn m d)) <= 11)%nat
  /\ hd ("", "") (converse_messages m (with_user_turn m d))
     = ("system",
        system_instruction (get_user_memory (author_id m) "user_name" d)
          (get_lum_preference "language" d))
  /\ List.last (converse_messages m (with_user_turn m d)) ("", "")
     = ("user", strip (lower (content m))).
Proof.
  unfold converse_messages. cbn [length hd].
  assert (0 <= 10)%Z as H10 by lia.
  pose proof (history_length (author_id m) 10 (with_user_turn m d) H10) as Hle.
  pose proof (history_ends_with_user_turn m d) as Hlast.
  destruct (get_conversation_history (author_id m) 10 (with_user_turn m d)) as [|h t] eqn:E.
  - discriminate.
  - repeat split.
    + simpl. lia.
    + simpl in Hle |- *. lia.
    + exact Hlast.
Qed.

(** *** The language *)

Lemma system_instruction_language (um : option str) (L : str) :
  L <> [] ->
  system_instruction um (Some L) = system_instruction um None ++ " Respond in " ++ L ++ ".".
Proof.
  intros HL. unfold system_instruction, language_instruction.
  rewrite (if_set_some L HL). cbn [if_set].
  rewrite app_nil_r, <- !app_assoc. reflexivity.
Qed.

Lemma on_message_stores_language (ex : Executors) (m : Message) (w : World) :
  author_bot m = false ->
  startswith (lower (content m)) "lum set language to" = true ->
  strip (skipn (length "lum set language to") (content m)) <> [] ->
  run (on_message ex m) w
  = mkWorld (set_lum_preference "language"
               (strip (skipn (length "lum set language to") (content m))) (db w))
      (trace w ++ [Reply ("Language set to **"
                          ++ strip (skipn (length "lum set language to") (content m))
                          ++ "**.")])
  /\ get_lum_preference "language" (db (run (on_message ex m) w))
     = Some (strip (skipn (length "lum set language to") (content m))).
Proof.
  intros Hbot Hs Hne.
  rewrite (on_message_set_language ex m Hbot Hs), run_handle_set_language. cbv zeta.
  destruct (strip (skipn (length "lum set language to") (content m))) as [|c l];
    [congruence|]. simpl.
  split; [reflexivity|]. unfold get_lum_preference; simpl. apply lookup_insert_eq.
Qed.

(** Only the set-language and the two opinion commands write to
    [lum_preferences]. *)
Lemma on_message_preferences (ex : Executors) (m : Message) (w : World) :
  no_preference_command m ->
  lum_preferences (db (run (on_message ex m) w)) = lum_preferences (db w).
Proof.
  intros (H1 & H2 & H3). unfold on_message. rewrite H1, H2, H3. cbn [andb].
  destruct (author_bot m); [reflexivity|].
  destruct (startswith _ "!setchannel"); [reflexivity|].
  rewrite run_query.
  destruct (in_guild m && _); [reflexivity|].
  destruct (startswith _ "!gif");
    [unfold handle_gif_search, handle_random_gif; handler_cases|].
  destruct (startswith _ "!img"); [unfold handle_image_generation; handler_cases|].
  destruct (is_message_directed_at_bot m); [|reflexivity].
  destruct (generate_prompt _); [unfold handle_image_generation; handler_cases|].
  destruct (contains _ "with a gif" || _).
  { destruct (truthy _); [|reflexivity].
    unfold handle_gif_search, handle_random_gif; handler_cases. }
  destruct (contains _ "give me" && _); [unfold handle_random_gif; handler_cases|].
  rewrite run_handle_bot_message. cbv zeta.
  destruct (chat_completion ex _ 200); reflexivity.
Qed.

Lemma session_preferences (events : list (Executors * Message)) (w : World) :
  Forall (fun e => no_preference_command (snd e)) events ->
  lum_preferences (db (session events w)) = lum_preferences (db w).
Proof.
  intros H. revert w. induction H as [|[ex m] events Hm Hevents IH]; intros w; [reflexivity|].
  cbn [session]. rewrite IH. apply on_message_preferences, Hm.
Qed.

(** X15.  Once [lum set language to] has stored a language, and through any
    messages that follow as long as none of them begins with
    [lum set language to], [lum set your opinion on] or [lum what] (the
    commands that write to [lum_preferences]), the language stays the stored
    one: the system instruction of a conversation, of any user, is the one
    without a language followed by [ Respond in <language>.], and the prompt
    for an opinion carries the same directive. *)
Theorem language_directive
    (ex : Executors) (m : Message) (w : World) (events : list (Executors * Message)) :
  author_bot m = false ->
  startswith (lower (content m)) "lum set language to" = true ->
  strip (skipn (length "lum set language to") (content m)) <> [] ->
  Forall (fun e => no_preference_command (snd e)) events ->
  let language := strip (skipn (length "lum set language to") (content m)) in
  let w2 := session events (run (on_message ex m) w) in
  get_lum_preference "language" (db w2) = Some language
  /\ (forall m' : Message,
        hd ("", "") (converse_messages m' (with_user_turn m' (db w2)))
        = ("system",
           system_instruction (get_user_memory (author_id m') "user_name" (db w2)) None
           ++ " Respond in " ++ language ++ "."))
  /\ (forall subject : str,
        opinion_prompt subject (get_lum_preference "language" (db w2))
        = "You are lum, a laid-back discord bot with strong opinions about everything."
          ++ " Provide your opinion on " ++ subject ++ " in one short sentence."
          ++ " Respond in " ++ language ++ "."
          ++ " Do not say that you have no opinion.").
Proof.
  intros Hbot Hs Hne Hevents language w2.
  destruct (on_message_stores_language ex m w Hbot Hs Hne) as [_ Hlang].
  fold language in Hlang.
  assert (get_lum_preference "language" (db w2) = Some language) as Hlang2.
  { unfold get_lum_preference, w2. rewrite (session_preferences events _ Hevents).
    exact Hlang. }
  split; [exact Hlang2|]. split.
  - intros m'. unfold converse_messages. cbn [hd].
    change (get_lum_preference ?k (with_user_turn m' ?d)) with (get_lum_preference k d).
    change (get_user_memory ?u ?k (with_user_turn m' ?d)) with (get_user_memory u k d).
    rewrite Hlang2, system_instruction_language by exact Hne. reflexivity.
  - intros subject. unfold opinion_prompt, language_instruction.
    rewrite Hlang2, (if_set_some language Hne). rewrite <- !app_assoc. reflexivity.
Qed.

Lemma language_directive_witness :
  hd ("", "")
     (converse_messages (direct_message 7 5 "hello")
        (with_user_turn (direct_message 7 5 "hello")
           (db (session [(services_saying "Salut.", direct_message 8 6 "how are you?");
                         (services_down, guild_message 1 42 "general" "!setchannel");
                         (services_down, guild_message 1 42 "general" "!gif cat")]
                  (run (on_message services_down
                          (guild_message 1 42 "general" "Lum set language to  French "))
                       fresh)))))
  = ("system", system_instruction None None ++ " Respond in French.").
Proof.
  assert (strip (skipn (length "lum set language to") "Lum set language to  French ") <> [])
    as Hne by (vm_compute; discriminate).
  assert (Forall (fun e : Executors * Message => no_preference_command (snd e))
            [(services_saying "Salut.", direct_message 8 6 "how are you?");
             (services_down, guild_message 1 42 "general" "!setchannel");
             (services_down, guild_message 1 42 "general" "!gif cat")]) as Hev
    by (repeat constructor).
  exact (proj1 (proj2 (language_directive services_down
                         (guild_message 1 42 "general" "Lum set language to  French ")
                         fresh
                         [(services_saying "Salut.", direct_message 8 6 "how are you?");
                          (services_down, guild_message 1 42 "general" "!setchannel");
                          (services_down, guild_message 1 42 "general" "!gif cat")]
                         eq_refl eq_refl Hne Hev))
           (direct_message 7 5 "hello")).
Defined.

(** *** Setting an opinion *)

Lemma on_message_stores_opinion
    (ex : Executors) (m : Message) (w : World) (P S M O : str) (o : ascii) :
  author_bot m = false -> channel_open m (db w) ->
  content m = P ++ S ++ M ++ o :: O ->
  lower P = "lum set your opinion on " ->
  token S ->
  lower M = " to " \/ lower M = " as " ->
  isspace o = false ->
  let opinion := strip (take_while notnewline (o :: O)) in
  run (on_message ex m) w
  = mkWorld (set_lum_preference S opinion (db w))
      (trace w ++ [Reply ("Okay, I've set my opinion on **" ++ S ++ "** to: " ++ opinion)])
  /\ opinion <> [].
Proof.
  intros Hbot Hopen Hc HP HS HM Ho opinion.
  pose proof (set_opinion_match P S M O o HP HS HM Ho) as Hset. rewrite <- Hc in Hset.
  split.
  - unfold run at 1.
    rewrite (on_message_set_opinion ex m w (" " ++ lower (S ++ M ++ o :: O)) Hbot Hopen).
    + fold (run (handle_set_opinion m) w).
      rewrite (run_handle_set_opinion m w _ Hset).
      cbn [group Nat.eqb]. rewrite (strip_token S HS). reflexivity.
    + rewrite Hc. unfold lower. rewrite map_app. fold (lower P). rewrite HP. reflexivity.
  - unfold opinion. cbn [take_while]. rewrite (nonspace_notnewline o Ho).
    rewrite strip_cons_nonspace by exact Ho. discriminate.
Qed.

(** X16.  [lum set your opinion on <subject> to <opinion>] (or [as]), the
    subject a text without whitespace and the command in any case: the
    opinion, the rest of the line stripped, is stored under the subject as
    written; no other preference and no other table changes; the only event
    is the reply that acknowledges. *)
Theorem set_opinion_stores_subject_as_written
    (ex : Executors) (m : Message) (w : World) (P S M O : str) (o : ascii) :
  author_bot m = false -> channel_open m (db w) ->
  content m = P ++ S ++ M ++ o :: O ->
  lower P = "lum set your opinion on " ->
  token S ->
  lower M = " to " \/ lower M = " as " ->
  isspace o = false ->
  let opinion := strip (take_while notnewline (o :: O)) in
  let w1 := run (on_message ex m) w in
  trace w1
  = trace w ++ [Reply ("Okay, I've set my opinion on **" ++ S ++ "** to: " ++ opinion)]
  /\ get_lum_preference S (db w1) = Some opinion
  /\ (forall key, key <> S -> get_lum_preference key (db w1) = get_lum_preference key (db w))
  /\ user_memory (db w1) = user_memory (db w)
  /\ conversation_history (db w1) = conversation_history (db w)
  /\ allowed_channels (db w1) = allowed_channels (db w).
Proof.
  intros Hbot Hopen Hc HP HS HM Ho opinion w1.
  destruct (on_message_stores_opinion ex m w P S M O o Hbot Hopen Hc HP HS HM Ho)
    as [Hrun _].
  fold opinion in Hrun. subst w1. rewrite Hrun.
  unfold get_lum_preference, set_lum_preference; simpl.
  repeat split.
  - apply lookup_insert_eq.
  - intros key Hkey. apply lookup_insert_ne. congruence.
Qed.

Lemma set_opinion_stores_subject_as_written_witness :
  get_lum_preference "Pizza"
    (db (run (on_message services_down
                (direct_message 7 5 "LUM set your opinion on Pizza AS the Best food ")) fresh))
  = Some "the Best food".
Proof.
  assert (token "Pizza") as HS by (split; [discriminate|repeat constructor]).
  exact (proj1 (proj2 (set_opinion_stores_subject_as_written services_down
                         (direct_message 7 5 "LUM set your opinion on Pizza AS the Best food ")
                         fresh "LUM set your opinion on " "Pizza" " AS " "he Best food " "t"
                         eq_refl (or_introl eq_refl) eq_refl eq_refl HS (or_intror eq_refl)
                         eq_refl))).
Defined.





(** *** The two key-value tables *)

(** X19.  [lum_preferences] under [set_lum_preference] and
    [get_lum_preference]: a key reads what was last written to it, writing a
    key leaves the others as they are (keys that differ in case are
    different), the second of two writes to a key wins, and writing what is
    there changes nothing. *)
Theorem preference_store_laws (key key' value value' : str) (d : DB) :
  get_lum_preference key (set_lum_preference key value d) = Some value
  /\ (key' <> key ->
      get_lum_preference key' (set_lum_preference key value d) = get_lum_preference key' d)
  /\ set_lum_preference key value' (set_lum_preference key value d)
     = set_lum_preference key value' d
  /\ (get_lum_preference key d = Some value -> set_lum_preference key value d = d).
Proof.
  unfold get_lum_preference, set_lum_preference; simpl. repeat split.
  - apply lookup_insert_eq.
  - intros Hne. apply lookup_insert_ne. congruence.
  - rewrite insert_insert_eq. reflexivity.
  - intros H. rewrite insert_id by exact H. destruct d; reflexivity.
Qed.

(** X20.  [user_memory] under [set_user_memory] and [get_user_memory]: an
    entry reads what was last written to it, writing it leaves the entries
    of other users and other keys as they are, the second of two writes wins,
    and no preference changes. *)
Theorem user_memory_laws (u u' : Z) (key key' value value' : str) (d : DB) :
  get_user_memory u key (set_user_memory u key value d) = Some value
  /\ ((u', key') <> (u, key) ->
      get_user_memory u' key' (set_user_memory u key value d) = get_user_memory u' key' d)
  /\ set_user_memory u key value' (set_user_memory u key value d)
     = set_user_memory u key value' d
  /\ get_lum_preference key' (set_user_memory u key value d) = get_lum_preference key' d.
Proof.
  unfold get_user_memory, set_user_memory, get_lum_preference; simpl. repeat split.
  - apply lookup_insert_eq.
  - intros Hne. apply lookup_insert_ne. congruence.
  - rewrite insert_insert_eq. reflexivity.
Qed.

Lemma preference_store_laws_witness :
  get_lum_preference "Pizza" (set_lum_preference "pizza" "meh" setup_database) = None.
Proof.
  rewrite (proj1 (proj2 (preference_store_laws "pizza" "Pizza" "meh" "" setup_database))).
  - reflexivity.
  - discriminate.
Defined.

Lemma user_memory_laws_witness :
  get_user_memory 8 "user_name" (set_user_memory 7 "user_name" "ann" setup_database) = None.
Proof.
  rewrite (proj1 (proj2 (user_memory_laws 7 8 "user_name" "user_name" "ann" "" setup_database))).
  - reflexivity.
  - intros H. inversion H.
Defined.

Lemma lower_space_char (b : ascii) : lower_char b = " "%char -> isspace b = true.
Proof. intros H. rewrite <- isspace_lower_char, H. reflexivity. Qed.

(** A literal with a space in it does not match inside a text without
    whitespace. *)
Lemma lit_match_needs_space (l1 l2 s : str) (p : option ascii) :
  Forall (fun b => isspace b = false) s ->
  lit_match true (l1 ++ " "%char :: l2) p s = None.
Proof.
  revert s p. induction l1 as [|a l1 IH]; intros s p Hs; cbn [app lit_match].
  - destruct Hs as [|b s Hb Hs]; [reflexivity|]. unfold char_eq.
    destruct (Ascii.eqb_spec (lower_char " ") (lower_char b)) as [E|]; [|reflexivity].
    symmetry in E. apply lower_space_char in E. congruence.
  - destruct Hs as [|b s Hb Hs]; [reflexivity|].
    destruct (char_eq true a b); [apply IH, Hs|reflexivity].
Qed.

Lemma search_from_miss (ic : bool) (r : regex) (p : option ascii) (b : ascii) (s : str) :
  rmatch ic r p (b :: s) [] accept = None ->
  search_from ic r p (b :: s) = search_from ic r (Some b) s.
Proof. intros H. cbn [search_from]. rewrite H. reflexivity. Qed.

Lemma set_opinion_not_in_token (s : str) (p : option ascii) :
  Forall (fun b => isspace b = false) s ->
  search_from true set_opinion_pattern p s = None.
Proof.
  intros Hs. revert p.
  assert (forall s p, Forall (fun b => isspace b = false) s ->
            rmatch true set_opinion_pattern p s [] accept = None) as Hone.
  { intros s0 p Hs0. unfold set_opinion_pattern. cbn [cat fold_right rmatch].
    change "lum set your opinion on" with ("lum" ++ " "%char :: "set your opinion on").
    rewrite lit_match_needs_space by exact Hs0. reflexivity. }
  induction Hs as [|b s Hb Hs IH]; intros p.
  - cbn [search_from]. rewrite Hone by constructor. reflexivity.
  - rewrite search_from_miss; [apply IH|]. apply Hone. constructor; assumption.
Qed.

(** [lum set your opinion on] and a subject without whitespace, with no
    [to] or [as] after it: the pattern finds nothing. *)
Lemma set_opinion_no_connector (P S : str) :
  lower P = "lum set your opinion on " ->
  Forall (fun b => isspace b = false) S ->
  re_search true set_opinion_pattern (P ++ S) = None.
Proof.
  intros HP HS. unfold re_search.
  assert (forall p c, rmatch true (cat [Group 1 lazy1; spaces1; any_of ["to"; "as"]; spaces1;
                                         Group 2 rest1]) p S c accept = None) as Hgroup.
  { intros p c. cbn [cat fold_right rmatch lazy1].
    match goal with |- ?x = None => destruct x as [m|] eqn:E end; [|reflexivity].
    exfalso. apply rep_sound in E as [run [rest [HSs [_ [_ E]]]]].
    change (rmatch true (cat (spaces1 :: [any_of ["to"; "as"]; spaces1; Group 2 rest1]))
              (after p run) rest ((1%nat, firstn (length S - length rest) S) :: c) accept
            = Some m) in E.
    rewrite rmatch_spaces_fail in E; [discriminate|].
    rewrite HSs in HS. apply Forall_app in HS as [_ HS].
    destruct HS as [|b rest Hb HS]; [exact I|exact Hb]. }
  do 24 (destruct P as [|? P]; [discriminate|]). destruct P; [|discriminate].
  injection HP as H0 H1 H2 H3 H4 H5 H6 H7 H8 H9 H10 H11 H12 H13 H14 H15 H16 H17 H18 H19
                  H20 H21 H22 H23.
  cbn [app].
  rewrite search_from_miss.
  2:{ unfold set_opinion_pattern.
      match goal with
      | |- rmatch true _ None (?c0 :: ?c1 :: ?c2 :: ?c3 :: ?c4 :: ?c5 :: ?c6 :: ?c7 :: ?c8
                                :: ?c9 :: ?c10 :: ?c11 :: ?c12 :: ?c13 :: ?c14 :: ?c15
                                :: ?c16 :: ?c17 :: ?c18 :: ?c19 :: ?c20 :: ?c21 :: ?c22
                                :: ?x :: S) [] accept = None =>
          change (c0 :: c1 :: c2 :: c3 :: c4 :: c5 :: c6 :: c7 :: c8 :: c9 :: c10 :: c11
                  :: c12 :: c13 :: c14 :: c15 :: c16 :: c17 :: c18 :: c19 :: c20 :: c21
                  :: c22 :: x :: S)
            with ([c0; c1; c2; c3; c4; c5; c6; c7; c8; c9; c10; c11; c12; c13; c14; c15;
                   c16; c17; c18; c19; c20; c21; c22] ++ x :: S)
      end.
      rewrite rmatch_lit_ignorecase_then
        by (cbn [lower map]; rewrite H0, H1, H2, H3, H4, H5, H6, H7, H8, H9, H10, H11, H12,
              H13, H14, H15, H16, H17, H18, H19, H20, H21, H22; reflexivity).
      match goal with |- ?x = None => destruct x as [m|] eqn:E end; [|reflexivity].
      exfalso. apply rmatch_spaces_inv in E as [run [rest [Hs [Hrun [Hlen E]]]]].
      destruct run as [|r0 [|r1 run]]; [simpl in Hlen; lia| |].
      - injection Hs as _ <-. rewrite Hgroup in E. discriminate.
      - exfalso. apply Forall_cons_iff in Hrun as [_ Hrun].
        apply Forall_cons_iff in Hrun as [Hr1 _].
        destruct S as [|s0 S']; [discriminate|]. injection Hs as _ -> _.
        apply Forall_cons_iff in HS as [HS0 _]. congruence. }
  repeat (rewrite search_from_miss;
          [|apply rmatch_lit_mismatch;
            first [rewrite H1|rewrite H2|rewrite H3|rewrite H4|rewrite H5|rewrite H6
                  |rewrite H7|rewrite H8|rewrite H9|rewrite H10|rewrite H11|rewrite H12
                  |rewrite H13|rewrite H14|rewrite H15|rewrite H16|rewrite H17|rewrite H18
                  |rewrite H19|rewrite H20|rewrite H21|rewrite H22|rewrite H23];
            discriminate]).
  apply set_opinion_not_in_token, HS.
Qed.

(** X21.  [lum set your opinion on <subject>] with a subject without
    whitespace and neither [to] nor [as] after it: the reply is the format
    hint, nothing is stored. *)
Theorem set_opinion_without_connector
    (ex : Executors) (m : Message) (w : World) (P S : str) :
  author_bot m = false -> channel_open m (db w) ->
  content m = P ++ S ->
  lower P = "lum set your opinion on " ->
  Forall (fun b => isspace b = false) S ->
  run (on_message ex m) w
  = mkWorld (db w)
      (trace w
       ++ [Reply "Please use the format: 'lum set your opinion on <subject> to <opinion>'."]).
Proof.
  intros Hbot Hopen Hc HP HS.
  unfold run. rewrite (on_message_set_opinion ex m w (" " ++ lower S) Hbot Hopen).
  - unfold handle_set_opinion. rewrite Hc, (set_opinion_no_connector P S HP HS). reflexivity.
  - rewrite Hc. unfold lower. rewrite map_app. fold (lower P). rewrite HP. reflexivity.
Qed.

Lemma set_opinion_without_connector_witness :
  run (on_message services_down (direct_message 7 5 "Lum set your opinion on pizza")) fresh
  = mkWorld (db fresh)
      [Reply "Please use the format: 'lum set your opinion on <subject> to <opinion>'."].
Proof.
  assert (Forall (fun b => isspace b = false) "pizza") as HS by repeat constructor.
  exact (set_opinion_without_connector services_down
           (direct_message 7 5 "Lum set your opinion on pizza") fresh
           "Lum set your opinion on " "pizza" eq_refl (or_introl eq_refl) eq_refl eq_refl HS).
Defined.

(** An alternation fails when each of its branches does. *)
Ltac each_alternative tac :=
  first [ tac
        | rewrite rmatch_alt_second;
          [each_alternative tac | each_alternative tac] ].

(** [lum what's your opinion on] with nothing after it: the pattern, which
    wants whitespace and a subject, finds nothing. *)
Lemma get_opinion_no_subject (P V : str) :
  In V ["'s"; "s"; " is"] ->
  lower P = "lum what" ++ V ++ " your opinion on" ->
  re_search true get_opinion_pattern P = None.
Proof.
  intros HV HP.
  assert (rmatch true get_opinion_pattern None P [] accept = None) as H0.
  { pose proof HP as HP'.
    apply lower_app_inv in HP' as [A [P' [-> [HA HP']]]].
    apply lower_app_inv in HP' as [B [C [-> [HB HC]]]].
    assert (forall p c, rmatch true (cat [Lit " your opinion on"; spaces1; Group 1 rest1])
                          p C c accept = None) as Htail.
    { intros p c. rewrite <- (app_nil_r C).
      rewrite rmatch_lit_ignorecase_then by exact HC.
      apply rmatch_spaces_fail. exact I. }
    unfold get_opinion_pattern.
    rewrite rmatch_lit_ignorecase_then by exact HA.
    unfold any_of. cbn [fold_left].
    assert (forall l, lower B = lower l ->
              rmatch true (cat [Lit l; Lit " your opinion on"; spaces1; Group 1 rest1])
                (after None A) (B ++ C) [] accept = None) as Hhit.
    { intros l Hl. rewrite rmatch_lit_ignorecase_then by exact Hl. apply Htail. }
    destruct B as [|b0 B]; [destruct HV as [<-|[<-|[<-|[]]]]; discriminate|].
    assert (forall a l, lower_char a <> lower_char b0 ->
              rmatch true (cat [Lit (a :: l); Lit " your opinion on"; spaces1; Group 1 rest1])
                (after None A) ((b0 :: B) ++ C) [] accept = None) as Hmiss.
    { intros a l Hne. apply rmatch_lit_mismatch, Hne. }
    destruct HV as [<-|[<-|[<-|[]]]]; injection HB as Hb0 HB;
      each_alternative
        ltac:(first [apply Hmiss; rewrite Hb0; discriminate
                    |apply Hhit; change (lower (b0 :: B)) with (lower_char b0 :: lower B);
                     rewrite Hb0, HB; reflexivity]). }
  unfold re_search.
  destruct HV as [<-|[<-|[<-|[]]]];
    repeat (destruct P as [|? P]; [discriminate HP|]);
    (destruct P; [|discriminate HP]);
    injection HP; intros;
    rewrite search_from_miss by exact H0;
    repeat (rewrite search_from_miss;
            [|apply rmatch_lit_mismatch;
              match goal with
              | H : lower_char ?c = _ |- _ <> lower_char ?c => rewrite H; discriminate
              end]);
    reflexivity.
Qed.

(** X22.  [lum what's your opinion on] (or [whats], [what is]) with
    nothing after it: the reply is the format hint; no text is generated and
    nothing is stored. *)
Theorem get_opinion_without_subject
    (ex : Executors) (m : Message) (w : World) (V : str) :
  author_bot m = false -> channel_open m (db w) ->
  In V ["'s"; "s"; " is"] ->
  lower (content m) = "lum what" ++ V ++ " your opinion on" ->
  run (on_message ex m) w
  = mkWorld (db w)
      (trace w ++ [Reply "Please ask in the format: 'lum what's your opinion on <subject>'."]).
Proof.
  intros Hbot Hopen HV Hc.
  unfold run.
  rewrite (on_message_get_opinion ex m w (V ++ " your opinion on") Hbot Hopen Hc).
  - unfold handle_get_opinion. rewrite (get_opinion_no_subject (content m) V HV Hc).
    reflexivity.
  - destruct HV as [<-|[<-|[<-|[]]]]; reflexivity.
Qed.

Lemma get_opinion_without_subject_witness :
  run (on_message services_down (direct_message 7 5 "Lum WHAT is your opinion on")) fresh
  = mkWorld (db fresh)
      [Reply "Please ask in the format: 'lum what's your opinion on <subject>'."].
Proof.
  assert (In (" is" : str) ["'s"; "s"; " is"]) as HV by (right; right; left; reflexivity).
  exact (get_opinion_without_subject services_down
           (direct_message 7 5 "Lum WHAT is your opinion on") fresh " is"
           eq_refl (or_introl eq_refl) HV eq_refl).
Defined.

(** ** Requests in natural language *)

Lemma lacks_one (cs s : str) (x : ascii) :
  lacks cs s -> In x cs -> Forall (fun c => c <> x) s.
Proof.
  intros H Hx. apply (List.Forall_impl _ (P := fun c => ~ In c cs)); [|exact H].
  intros c Hc ->. exact (Hc Hx).
Qed.

Lemma startswith_app_inv (A R p : str) :
  startswith (A ++ R) p = true ->
  startswith A p = true \/ exists p2, p = A ++ p2 /\ startswith R p2 = true.
Proof.
  revert p. induction A as [|a A IH]; intros p H.
  - right. exists p. auto.
  - destruct p as [|b p]; [left; reflexivity|].
    cbn [app startswith] in H |- *.
    destruct (Ascii.eqb_spec b a) as [->|]; [|discriminate].
    destruct (IH p H) as [H1|[p2 [-> H2]]]; [left; exact H1|].
    right. exists p2. auto.
Qed.

Lemma startswith_In (s p : str) (c : ascii) :
  startswith s p = true -> In c p -> In c s.
Proof.
  revert s. induction p as [|b p IH]; intros s H Hc; [destruct Hc|].
  apply startswith_cons_inv in H as [s' [-> H]].
  destruct Hc as [->|Hc]; [left; reflexivity|right; apply IH; assumption].
Qed.

Lemma startswith_self (p Y : str) : startswith (p ++ Y) p = true.
Proof.
  induction p as [|a p IH]; [reflexivity|].
  cbn [app startswith]. rewrite Ascii.eqb_refl. exact IH.
Qed.

(** A phrase without [w] that is not at the start of [A] is not at the start
    of [A] followed by nothing or by a text that begins with [w]. *)
Lemma not_at_start (A R p : str) :
  startswith A p = false ->
  ~ In "w"%char p ->
  R = [] \/ (exists R', R = "w"%char :: R') ->
  startswith (A ++ R) p = false.
Proof.
  intros HA Hw HR.
  destruct (startswith (A ++ R) p) eqn:E; [exfalso|reflexivity].
  apply startswith_app_inv in E as [E|[p2 [-> E]]]; [congruence|].
  destruct p2 as [|c p2].
  - rewrite app_nil_r in HA. pose proof (startswith_self A []) as H.
    rewrite app_nil_r in H. congruence.
  - destruct HR as [->|[R' ->]]; [discriminate|].
    apply startswith_cons_inv in E as [s' [E _]]. injection E as <- _.
    apply Hw, in_or_app. right. left. reflexivity.
Qed.

Lemma startswith_lacks (A p : str) (x : ascii) :
  Forall (fun c => c <> x) A -> In x p -> startswith A p = false.
Proof.
  intros HA Hx. destruct (startswith A p) eqn:E; [exfalso|reflexivity].
  rewrite List.Forall_forall in HA.
  exact (HA x (startswith_In A p x E Hx) eq_refl).
Qed.

Lemma not_lum_what (A R : str) :
  Forall (fun c => c <> "w"%char) A ->
  startswith R " what" = false -> startswith R "what" = false ->
  startswith (A ++ R) " what" = false.
Proof.
  intros HA H1 H2. destruct A as [|a0 [|a1 A]].
  - exact H1.
  - cbn [app startswith]. destruct (Ascii.eqb " " a0); [exact H2|reflexivity].
  - apply Forall_cons_iff in HA as [_ HA]. apply Forall_cons_iff in HA as [Ha1 _].
    cbn [app startswith]. destruct (Ascii.eqb " " a0); [|reflexivity].
    destruct (Ascii.eqb_spec "w" a1); [congruence|reflexivity].
Qed.

Lemma contains_start (s p : str) : startswith s p = true -> contains s p = true.
Proof. intros H. destruct s; cbn [contains]; rewrite H; reflexivity. Qed.

Lemma contains_app (X p Y : str) : contains (X ++ p ++ Y) p = true.
Proof.
  induction X as [|c X IH].
  - change ([] ++ p ++ Y) with (p ++ Y). apply contains_start, startswith_self.
  - cbn [app contains]. destruct (startswith _ p); [reflexivity|exact IH].
Qed.

Lemma contains_In (s p : str) (c : ascii) : contains s (c :: p) = true -> In c s.
Proof.
  induction s as [|a s IH]; [discriminate|].
  cbn [contains startswith]. destruct (Ascii.eqb_spec c a) as [->|].
  - intros _. left. reflexivity.
  - intros H. right. apply IH, H.
Qed.

Lemma contains_lacks (s p : str) (c : ascii) :
  Forall (fun b => b <> c) s -> contains s (c :: p) = false.
Proof.
  intros H. destruct (contains s (c :: p)) eqn:E; [exfalso|reflexivity].
  apply contains_In in E. rewrite List.Forall_forall in H. exact (H c E eq_refl).
Qed.

(** The text before the first occurrence of a phrase. *)
Lemma split_before_first (X p Y : str) (c : ascii) :
  Forall (fun b => b <> c) X -> split_before (X ++ c :: p ++ Y) (c :: p) = X.
Proof.
  induction 1 as [|b X Hb HX IH].
  - cbn [app split_before startswith].
    rewrite Ascii.eqb_refl, startswith_self. reflexivity.
  - cbn [app split_before startswith].
    destruct (Ascii.eqb_spec c b); [congruence|]. rewrite IH. reflexivity.
Qed.

Lemma rstrip_idem (s : str) : rstrip (rstrip s) = rstrip s.
Proof.
  induction s as [|c s IH]; [reflexivity|].
  rewrite rstrip_cons. destruct (isspace c && is_empty (rstrip s)) eqn:E; [reflexivity|].
  rewrite rstrip_cons, IH, E. reflexivity.
Qed.

(** [query.startswith("lum")] and [query[3:].strip()] on a text that begins
    with [lum]. *)
Lemma gif_query_lum (A : str) :
  startswith (strip ("lum" ++ A)) "lum" = true
  /\ strip (skipn 3 (strip ("lum" ++ A))) = strip A.
Proof.
  assert (strip ("lum" ++ A) = "lum" ++ rstrip A) as ->.
  { change ("lum" ++ A) with ("l"%char :: "u"%char :: "m"%char :: A).
    rewrite strip_cons_nonspace by reflexivity. rewrite !rstrip_cons.
    reflexivity. }
  split; [reflexivity|].
  change (skipn 3 ("lum" ++ rstrip A)) with (rstrip A).
  unfold strip. rewrite rstrip_idem. reflexivity.
Qed.

Lemma lstrip_blank_app (ws s : str) : blank ws -> lstrip (ws ++ s) = lstrip s.
Proof.
  unfold lstrip. induction 1 as [|b ws Hb Hws IH]; [reflexivity|].
  cbn [app drop_while]. rewrite Hb. exact IH.
Qed.

Lemma lstrip_app (A R : str) :
  lstrip (A ++ R) = if is_empty (lstrip A) then lstrip R else lstrip A ++ R.
Proof.
  unfold lstrip. induction A as [|a A IH]; [reflexivity|].
  cbn [app drop_while]. destruct (isspace a); [exact IH|reflexivity].
Qed.

(** [lum] and a text without [l] that does not go on with [generate]: no
    request for an image. *)
Lemma generate_prompt_lum_none (X : str) :
  Forall (fun b => b <> "l"%char) X ->
  startswith (lstrip X) "generate" = false ->
  generate_prompt ("lum" ++ X) = None.
Proof.
  intros Hl Hg. unfold generate_prompt, re_search.
  change ("lum" ++ X) with ("l"%char :: "um" ++ X).
  rewrite search_from_miss.
  - rewrite search_from_no_l; [reflexivity|].
    cbn [app]. repeat (constructor; [discriminate|]). exact Hl.
  - unfold generate_pattern.
    change (cat (WordB :: ?R)) with (Seq WordB (cat R)).
    cbn [rmatch]. change (xorb _ _) with true. cbv iota.
    change ("l"%char :: "um" ++ X) with ("lum" ++ X).
    rewrite rmatch_lit_then.
    match goal with |- ?x = None => destruct x as [m|] eqn:E end; [exfalso|reflexivity].
    apply rmatch_spaces_inv in E as [run [rest [HX [Hrun [_ E]]]]].
    cbn [cat fold_right rmatch] in E.
    destruct (lit_match false "generate" (after (after None "lum") run) rest)
      as [[p' s']|] eqn:EL; [|discriminate].
    apply lit_match_sound in EL as [-> _].
    rewrite HX in Hg. change ("generate" ++ s') with ("g"%char :: "enerate" ++ s') in Hg.
    rewrite lstrip_split in Hg by (assumption || reflexivity).
    change ("g"%char :: "enerate" ++ s') with ("generate" ++ s') in Hg.
    rewrite startswith_self in Hg. discriminate Hg.
Qed.

(** Where [on_message] takes a message that begins with [lum] and is neither
    a command on the language or on an opinion, nor a request for an image. *)
Lemma on_message_lum (ex : Executors) (m : Message) (w : World) (X : str) :
  author_bot m = false ->
  channel_open m (db w) ->
  lower (content m) = "lum" ++ X ->
  startswith X " set language to" = false ->
  startswith X " set your opinion on" = false ->
  startswith X " what" = false ->
  generate_prompt ("lum" ++ X) = None ->
  on_message ex m w =
  (if contains ("lum" ++ X) "with a gif" || contains ("lum" ++ X) "as a gif"
   then (let q := gif_query ("lum" ++ X) in
         if truthy q then handle_gif_search ex m (Some q)
         else reply "please provide a search term for the gif.") w
   else if contains ("lum" ++ X) "give me" && contains ("lum" ++ X) "random gif"
   then handle_random_gif ex m w
   else handle_bot_message ex m w).
Proof.
  intros Hbot Hopen Hlc H1 H2 H3 Hgen.
  unfold on_message. rewrite Hbot, Hlc, Hgen.
  change (startswith ("lum" ++ X) "!setchannel") with false.
  change (startswith ("lum" ++ X) "!gif") with false.
  change (startswith ("lum" ++ X) "!img") with false.
  change (startswith ("lum" ++ X) "lum set language to")
    with (startswith X " set language to").
  change (startswith ("lum" ++ X) "lum set your opinion on")
    with (startswith X " set your opinion on").
  change (startswith ("lum" ++ X) "lum what") with (startswith X " what").
  rewrite H1, H2, H3.
  cbv iota. unfold bind at 1, query at 1. cbv beta iota.
  rewrite (gate_open m (db w) Hopen).
  rewrite (directed_at_lum m X Hlc).
  cbn [andb].
  destruct (contains ("lum" ++ X) "with a gif" || contains ("lum" ++ X) "as a gif");
    [destruct (truthy _); reflexivity|].
  destruct (contains ("lum" ++ X) "give me" && contains ("lum" ++ X) "random gif");
    reflexivity.
Qed.

Lemma no_w (p : str) : contains p "w" = false -> ~ In "w"%char p.
Proof.
  intros H Hin. induction p as [|c p IH]; [destruct Hin|].
  cbn [contains startswith] in H. destruct (Ascii.eqb_spec "w" c) as [E|E]; [discriminate|].
  destruct Hin as [->|Hin]; [congruence|]. apply IH; assumption.
Qed.

(** X23.  [lum <words> with a gif ...], the words without [l], [w], [y] and
    not beginning with [generate], so that the message is no other command
    and no request for an image.  The search is for the words before the
    first [with a gif], lowercased and stripped, [lum] being cut off as a
    prefix, not as a word; [with a gif] separates even when [as a gif] comes
    before it.  When there are no words the reply is the hint. *)
Theorem gif_request_in_words
    (ex : Executors) (m : Message) (w : World) (A B : str) :
  author_bot m = false -> channel_open m (db w) ->
  lower (content m) = "lum" ++ A ++ "with a gif" ++ B ->
  lacks "lwy" A -> startswith (lstrip A) "generate" = false ->
  lacks "l" B ->
  run (on_message ex m) w
  = if is_empty (strip A)
    then mkWorld (db w) (trace w ++ [Reply "please provide a search term for the gif."])
    else run (handle_gif_search ex m (Some (strip A))) w.
Proof.
  intros Hbot Hopen Hlc HA Hg HB.
  assert (In "l"%char ("lwy" : str)) as Il by (simpl; auto).
  assert (In "w"%char ("lwy" : str)) as Iw by (simpl; auto).
  assert (In "y"%char ("lwy" : str)) as Iy by (simpl; auto).
  assert (In "l"%char ("l" : str)) as Il' by (simpl; auto).
  pose proof (lacks_one "lwy" A "l" HA Il) as HAl.
  pose proof (lacks_one "lwy" A "w" HA Iw) as HAw.
  pose proof (lacks_one "lwy" A "y" HA Iy) as HAy.
  pose proof (lacks_one "l" B "l" HB Il') as HBl.
  assert (exists R', "with a gif" ++ B = "w"%char :: R') as HR by (eexists; reflexivity).
  unfold run.
  rewrite (on_message_lum ex m w (A ++ "with a gif" ++ B) Hbot Hopen Hlc).
  - change ("lum" ++ A ++ "with a gif" ++ B) with (("lum" ++ A) ++ "with a gif" ++ B).
    rewrite contains_app. cbn [orb]. cbv zeta.
    unfold gif_query. rewrite contains_app.
    change (("lum" ++ A) ++ "with a gif" ++ B)
      with (("lum" ++ A) ++ "w"%char :: "ith a gif" ++ B).
    rewrite split_before_first
      by (cbn [app]; repeat (constructor; [discriminate|]); exact HAw).
    destruct (gif_query_lum A) as [-> ->].
    unfold truthy. destruct (is_empty (strip A)); reflexivity.
  - apply not_at_start; [|apply no_w; reflexivity|right; exact HR].
    apply (startswith_lacks A _ "l" HAl). simpl; auto 20.
  - apply not_at_start; [|apply no_w; reflexivity|right; exact HR].
    apply (startswith_lacks A _ "y" HAy). simpl; auto 20.
  - apply not_lum_what; [exact HAw|reflexivity|reflexivity].
  - apply generate_prompt_lum_none.
    + apply Forall_app. split; [exact HAl|].
      cbn [app]. repeat (constructor; [discriminate|]). exact HBl.
    + rewrite lstrip_app. destruct (is_empty (lstrip A)); [reflexivity|].
      apply not_at_start; [exact Hg|apply no_w; reflexivity|right; exact HR].
Qed.

Lemma gif_request_in_words_witness :
  run (on_message services_down
         (direct_message 7 5 "Lumber jack as a gif WITH a gif now")) fresh
  = run (handle_gif_search services_down
           (direct_message 7 5 "Lumber jack as a gif WITH a gif now")
           (Some "ber jack as a gif")) fresh.
Proof.
  assert (lacks "lwy" "ber jack as a gif ") as HA.
  { unfold lacks.
    repeat (constructor;
            [simpl; intros H; repeat (destruct H as [H|H]; [discriminate H|]); exact H|]).
    constructor. }
  assert (lacks "l" " now") as HB.
  { unfold lacks.
    repeat (constructor;
            [simpl; intros H; repeat (destruct H as [H|H]; [discriminate H|]); exact H|]).
    constructor. }
  exact (gif_request_in_words services_down
           (direct_message 7 5 "Lumber jack as a gif WITH a gif now") fresh
           "ber jack as a gif " " now" eq_refl (or_introl eq_refl) eq_refl HA eq_refl HB).
Defined.

Lemma contains_lum (A p : str) (c : ascii) :
  c <> "l"%char -> c <> "u"%char -> c <> "m"%char ->
  contains ("lum" ++ A) (c :: p) = contains A (c :: p).
Proof.
  intros Hl Hu Hm. cbn [app contains startswith].
  destruct (Ascii.eqb_spec c "l"); [congruence|].
  destruct (Ascii.eqb_spec c "u"); [congruence|].
  destruct (Ascii.eqb_spec c "m"); [congruence|].
  reflexivity.
Qed.

(** X24.  [lum <words>], the words without [l], [w], [y], not beginning
    with [generate] and without [as a gif]: the message asks for a random
    GIF exactly when it has both [give me] and [random gif], in any order,
    and is a turn of the conversation otherwise. *)
Theorem random_gif_or_conversation
    (ex : Executors) (m : Message) (w : World) (A : str) :
  author_bot m = false -> channel_open m (db w) ->
  lower (content m) = "lum" ++ A ->
  lacks "lwy" A -> startswith (lstrip A) "generate" = false ->
  contains A "as a gif" = false ->
  run (on_message ex m) w
  = if contains A "give me" && contains A "random gif"
    then run (handle_random_gif ex m) w
    else run (handle_bot_message ex m) w.
Proof.
  intros Hbot Hopen Hlc HA Hg Has.
  assert (In "l"%char ("lwy" : str)) as Il by (simpl; auto).
  assert (In "w"%char ("lwy" : str)) as Iw by (simpl; auto).
  assert (In "y"%char ("lwy" : str)) as Iy by (simpl; auto).
  pose proof (lacks_one "lwy" A "l" HA Il) as HAl.
  pose proof (lacks_one "lwy" A "w" HA Iw) as HAw.
  pose proof (lacks_one "lwy" A "y" HA Iy) as HAy.
  unfold run.
  rewrite (on_message_lum ex m w A Hbot Hopen Hlc).
  - rewrite !contains_lum by discriminate.
    rewrite (contains_lacks A "ith a gif" "w" HAw), Has. cbn [orb].
    destruct (contains A "give me" && contains A "random gif"); reflexivity.
  - apply (startswith_lacks A _ "l" HAl). simpl; auto 20.
  - apply (startswith_lacks A _ "y" HAy). simpl; auto 20.
  - apply (startswith_lacks A _ "w" HAw). simpl; auto 20.
  - apply generate_prompt_lum_none; assumption.
Qed.

Lemma random_gif_or_conversation_witness :
  run (on_message services_down
         (direct_message 7 5 "Lum, a RANDOM GIF: give me one")) fresh
  = run (handle_random_gif services_down
           (direct_message 7 5 "Lum, a RANDOM GIF: give me one")) fresh.
Proof.
  assert (lacks "lwy" ", a random gif: give me one") as HA.
  { unfold lacks.
    repeat (constructor;
            [simpl; intros H; repeat (destruct H as [H|H]; [discriminate H|]); exact H|]).
    constructor. }
  exact (random_gif_or_conversation services_down
           (direct_message 7 5 "Lum, a RANDOM GIF: give me one") fresh
           ", a random gif: give me one" eq_refl (or_introl eq_refl) eq_refl HA
           eq_refl eq_refl).
Defined.
